(** * Colour theming of the logo header: hex <-> HSL and the complementary colour

    A shallow embedding of [gemini-voice-frontend/src/LogoContext.js]
    ([hexToHSL], [hslToHex], [calculateComplementaryColor] and the state of
    [LogoProvider]), and of the two components that use it: [Header], which
    shows the logo, and [LogoUploader], which posts a new one.

    JavaScript numbers are IEEE 754 binary64 values; they are modelled by
    Rocq's primitive [float], which is the same format with the same
    round-to-nearest-even arithmetic.  The built-ins the source calls
    ([Math.round], [Math.min], [%], [toFixed], [parseInt], ...) are defined
    below from the ECMAScript definitions, on the exact integer mantissa of
    the float.  JavaScript strings are modelled by [string]; a character
    stands for one code unit. *)

From Stdlib Require Import ZArith Bool List Lia.
From Stdlib Require Import Ascii String.
From Stdlib Require Import Uint63 Floats.
Import ListNotations.

Set Warnings "-inexact-float".

(** ** JavaScript numbers *)

Module JS.

Definition number := float.

Local Open Scope float_scope.

(** The built-ins below that need the digits of a number take it apart
    exactly: with [(f, e) := frshiftexp x] and [M := normfr_mantissa f], a
    finite non-zero [x] has [|x| = M * 2 ^ (e - 2154)] and
    [2^52 <= M < 2^53] (binary64 has 53 significant bits; the kernel's
    [frshiftexp] biases exponents by 2101).  For a zero, [M = 0]. *)

(** [2^52]: from here on every number is an integer. *)
Definition two52 : number := 4503599627370496.

(** [x === y] and [x < y] on numbers are the IEEE comparisons ([PrimFloat.eqb],
    [PrimFloat.ltb]): NaN is unequal to everything, [+0 === -0]. *)

(** [Math.abs]. *)
Definition Math_abs (x : number) : number := abs x.

(** [Math.max] and [Math.min] of two numbers: NaN if either is NaN, and
    [-0] is smaller than [+0]. *)
Definition Math_max2 (a b : number) : number :=
  if is_nan a || is_nan b then nan
  else if a <? b then b
  else if b <? a then a
  else if get_sign a then b else a.

Definition Math_min2 (a b : number) : number :=
  if is_nan a || is_nan b then nan
  else if a <? b then a
  else if b <? a then b
  else if get_sign a then a else b.

(** [Math.max(a, b, c)] and [Math.min(a, b, c)]: the arguments are folded
    from the left. *)
Definition Math_max (a b c : number) : number := Math_max2 (Math_max2 a b) c.
Definition Math_min (a b c : number) : number := Math_min2 (Math_min2 a b) c.

(** Rounding of the rational [M / 2^k] to an integer, ties up and ties down.
    Both are used with [M < 2^57]; for [k] beyond the width of [M] the
    quotient is below one half. *)
Definition round_half_up (M k : int) : int :=
  if (58 <? k)%uint63 then 0%uint63
  else ((M + (1 << (k - 1))) >> k)%uint63.

Definition round_half_down (M k : int) : int :=
  if (58 <? k)%uint63 then 0%uint63
  else ((M + (1 << (k - 1)) - 1) >> k)%uint63.

(** [Math.round(x)]: the integer closest to [x], a tie going towards
    [+Infinity]; NaN, infinities and zeros are returned unchanged, and a
    negative [x] that rounds to zero gives [-0].  Numbers of magnitude [2^52]
    or more are integers already.  Below, [|x| = M / 2^k] with [k >= 1]. *)
Definition Math_round (x : number) : number :=
  if abs x <? two52 then
    let '(f, e) := frshiftexp x in
    let M := normfr_mantissa f in
    let k := (2154 - e)%uint63 in
    if 0 <? x then of_uint63 (round_half_up M k)
    else if x <? 0 then - of_uint63 (round_half_down M k)
    else x
  else x.

(** The remainder loop of [%]: [r * 2^d mod m], one doubling at a time
    ([r < m < 2^53], so nothing overflows).  [d] is at most the distance
    between the exponents of two finite numbers. *)
Definition max_exponent_gap : nat := 2100.

Fixpoint rem_shift (fuel : nat) (d r m : int) : int :=
  match fuel with
  | O => r
  | S fuel' =>
      if (d =? 0)%uint63 then r
      else rem_shift fuel' (d - 1)%uint63 (((r << 1) mod m)%uint63) m
  end.

(** [x % y] (Number::remainder): NaN when an operand is NaN, the dividend
    is infinite or the divisor is zero; the dividend when the divisor is
    infinite or the dividend is zero; otherwise [x - y * trunc(x / y)]
    computed exactly, with the sign of the dividend.  The first test covers
    every case in which the dividend is the result: it is finite and smaller
    in magnitude than the divisor.  In the last case
    [|x| = Mx * 2^ex >= |y| = My * 2^ey], both finite, and the result is
    [(Mx * 2^(ex - ey) mod My) * 2^ey]. *)
Definition rem (x y : number) : number :=
  if abs x <? abs y then x
  else if is_nan x || is_nan y || is_infinity x || is_zero y then nan
  else
    let '(fx, ex) := frshiftexp x in
    let '(fy, ey) := frshiftexp y in
    let My := normfr_mantissa fy in
    let r := rem_shift max_exponent_gap (ex - ey)%uint63
               ((normfr_mantissa fx mod My)%uint63) My in
    let v := ldshiftexp (of_uint63 r) (ey - 53)%uint63 in
    if x <? 0 then - v else v.

(** The number nearest to the rational [n / 10] (ties to even), as
    [StringToNumber] yields it for the decimal digits of [n] with a point
    before the last one.  When [n < 2^53] it is the float division of two
    exactly represented integers. *)
Definition tenths (n : int) : number :=
  if (n <? 9007199254740992)%uint63 then of_uint63 n / 10
  else
    let '(q, e, l) := SFdiv_core_binary prec emax (to_Z n) 0 10 0 in
    SF2Prim (binary_round_aux prec emax false q e l).

(** [+(x).toFixed(1)]: [toFixed(1)] picks the integer [n] for which [n / 10]
    is closest to [|x|] (the larger [n] on a tie), prints the sign (for
    [x < 0]) and the digits of [n] with one decimal, and unary [+] reads the
    string back.  NaN and the infinities print as themselves; a magnitude
    of [2^52] or more is an integer and is read back unchanged (also when
    [toFixed] switches to exponent notation at [1e21]).  Both zeros print as
    ["0.0"].  Below, [10 * |x| = 10 * M / 2^k]. *)
Definition toFixed1 (x : number) : number :=
  if abs x <? two52 then
    let '(f, e) := frshiftexp x in
    let n := round_half_up (10 * normfr_mantissa f)%uint63 (2154 - e)%uint63 in
    if x <? 0 then - tenths n else tenths n
  else x.

End JS.

Import JS.
Local Open Scope float_scope.

(** ** JavaScript strings and values *)

Module JSString.

Local Open Scope string_scope.

(** [hex.replace(/^#/, '')]: one leading ["#"] is removed. *)
Definition replace_leading_hash (hex : string) : string :=
  match hex with
  | String "#" rest => rest
  | _ => hex
  end.

(** [str.substring(start, end)] for non-negative integer arguments: both are
    clamped to the length and swapped when [start > end]. *)
Definition substring (start end_ : nat) (str : string) : string :=
  String.substring (Nat.min start end_) (Nat.max start end_ - Nat.min start end_) str.

(** White space skipped by [parseInt] (TAB, LF, VT, FF, CR, SP, NBSP among
    the code units a [string] character can hold). *)
Definition is_white_space (c : ascii) : bool :=
  match nat_of_ascii c with
  | 9 | 10 | 11 | 12 | 13 | 32 | 160 => true
  | _ => false
  end.

Fixpoint trim_start (str : string) : string :=
  match str with
  | String c rest => if is_white_space c then trim_start rest else str
  | EmptyString => str
  end.

(** Value of a radix-16 digit, either case, from its code unit:
    ["0"]-["9"] are 48-57, ["a"]-["f"] 97-102 and ["A"]-["F"] 65-70. *)
Definition hex_digit_value (c : ascii) : option Z :=
  let n := Z.of_nat (nat_of_ascii c) in
  if (48 <=? n)%Z && (n <=? 57)%Z then Some (n - 48)%Z
  else if (97 <=? n)%Z && (n <=? 102)%Z then Some (n - 87)%Z
  else if (65 <=? n)%Z && (n <=? 70)%Z then Some (n - 55)%Z
  else None.

(** Value of the longest prefix of radix-16 digits; [acc] is the value read
    so far, [None] while no digit has been read. *)
Fixpoint hex_prefix_value (str : string) (acc : option Z) : option Z :=
  match str with
  | String c rest =>
      match hex_digit_value c with
      | Some d => hex_prefix_value rest (Some (16 * match acc with Some a => a | None => 0 end + d)%Z)
      | None => acc
      end
  | EmptyString => acc
  end.

(** The number nearest to an integer (ties to even). *)
Definition number_of_Z (z : Z) : number :=
  SF2Prim (binary_normalize prec emax z 0 false).

(** [parseInt(str, 16)]: leading white space is skipped, then an optional
    sign, then an optional ["0x"] or ["0X"]; the longest prefix of hex digits
    is the value, and there being none gives NaN.  A negative zero is
    [-0]. *)
Definition parseInt16 (str : string) : number :=
  let str := trim_start str in
  let '(neg, str) :=
    match str with
    | String "-" rest => (true, rest)
    | String "+" rest => (false, rest)
    | _ => (false, str)
    end in
  let str :=
    match str with
    | String "0" (String "x" rest) => rest
    | String "0" (String "X" rest) => rest
    | _ => str
    end in
  match hex_prefix_value str None with
  | None => nan
  | Some z => if neg then (- number_of_Z z)%float else number_of_Z z
  end.

Definition hex_char (d : Z) : ascii :=
  match d with
  | 0 => "0" | 1 => "1" | 2 => "2" | 3 => "3" | 4 => "4" | 5 => "5"
  | 6 => "6" | 7 => "7" | 8 => "8" | 9 => "9" | 10 => "a" | 11 => "b"
  | 12 => "c" | 13 => "d" | 14 => "e" | _ => "f"
  end%Z%char.

(** Radix-16 digits of a non-negative integer, most significant first. *)
Fixpoint hex_digits (fuel : nat) (z : Z) (acc : string) : string :=
  let acc := String (hex_char (z mod 16)) acc in
  match fuel with
  | O => acc
  | S fuel' => if (z / 16 =? 0)%Z then acc else hex_digits fuel' (z / 16) acc
  end.

Definition Z_toString16 (z : Z) : string :=
  hex_digits (Z.to_nat (Z.log2 z)) z "".

(** [x.toString(16)]: ["NaN"], ["Infinity"], ["-Infinity"], ["0"] for both
    zeros, and a ["-"] before the digits of a negative number.  The receiver
    here is always a result of [Math.round], so it has no fraction; the
    digits are those of the integer part. *)
Definition toString16 (x : number) : string :=
  match Prim2SF x with
  | S754_nan => "NaN"
  | S754_infinity false => "Infinity"
  | S754_infinity true => "-Infinity"
  | S754_zero _ => "0"
  | S754_finite sg m e =>
      let z := match e with
               | Zneg k => Z.shiftr (Zpos m) (Zpos k)
               | _ => Z.shiftl (Zpos m) e
               end in
      if sg then "-" ++ Z_toString16 z else Z_toString16 z
  end.

(** [str.padStart(2, '0')]. *)
Definition padStart2 (str : string) : string :=
  match String.length str with
  | 0 => "00"
  | 1 => "0" ++ str
  | _ => str
  end.

End JSString.

(** The values that reach the place of a colour string: the string of a
    [useState] default, or the [dominantColor] of a JSON response, which is
    [undefined] (no such field), [null], a boolean, a number, a string, or an
    array or object.  Arrays and objects are as [JSON.parse] builds them, so
    they have no method of their own; [ref] tells one from another. *)
Inductive JsValue : Type :=
  | JsUndefined
  | JsNull
  | JsBoolean (b : bool)
  | JsNumber (x : number)
  | JsString (str : string)
  | JsObject (ref : nat).

(** [!v]: the value is falsy.  Arrays and objects are truthy. *)
Definition js_not (v : JsValue) : bool :=
  match v with
  | JsUndefined | JsNull => true
  | JsBoolean b => negb b
  | JsNumber x => is_zero x || is_nan x
  | JsString str => match str with EmptyString => true | _ => false end
  | JsObject _ => false
  end.

(** A call either returns or throws. *)
Inductive JsError : Type := TypeError.

Inductive completion (A : Type) : Type :=
  | Return (a : A)
  | Throw (e : JsError).

Arguments Return {A} a.
Arguments Throw {A} e.

Definition bind {A B} (c : completion A) (k : A -> completion B) : completion B :=
  match c with
  | Return a => k a
  | Throw e => Throw e
  end.

Notation "x <- c ;; k" := (bind c (fun x => k))
  (at level 61, c at next level, right associativity).

Import JSString.

(** ** The colour conversions of [LogoContext.js] *)

(** The object [{ h, s, l }]. *)
Record HSL : Type := mkHSL { h : number; s : number; l : number }.

(** [hexToHSL], lines 6-43, on a string. *)
Definition hexToHSL_string (hex : string) : HSL :=
  let hex := replace_leading_hash hex in
  let r := parseInt16 (substring 0 2 hex) / 255 in
  let g := parseInt16 (substring 2 4 hex) / 255 in
  let b := parseInt16 (substring 4 6 hex) / 255 in
  let cmin := Math_min r g b in
  let cmax := Math_max r g b in
  let delta := cmax - cmin in
  let h :=
    if delta =? 0 then 0
    else if cmax =? r then rem ((g - b) / delta) 6
    else if cmax =? g then (b - r) / delta + 2
    else (r - g) / delta + 4 in
  let h := Math_round (h * 60) in
  let h := if h <? 0 then h + 360 else h in
  let l := (cmax + cmin) / 2 in
  let s := if delta =? 0 then 0 else delta / (1 - Math_abs (2 * l - 1)) in
  let s := toFixed1 (s * 100) in
  let l := toFixed1 (l * 100) in
  {| h := h; s := s; l := l |}.

(** [hexToHSL] on any value: [hex.replace] throws a [TypeError] when [hex]
    is [undefined] or [null] (no properties) and when it is a boolean, a
    number, an array or an object of a JSON response (no [replace]
    method). *)
Definition hexToHSL (hex : JsValue) : completion HSL :=
  match hex with
  | JsString str => Return (hexToHSL_string str)
  | _ => Throw TypeError
  end.

(** [hslToHex], lines 46-78. *)
Definition hslToHex (h s l : number) : string :=
  let s := s / 100 in
  let l := l / 100 in
  let c := (1 - Math_abs (2 * l - 1)) * s in
  let x := c * (1 - Math_abs (rem (h / 60) 2 - 1)) in
  let m := l - c / 2 in
  let '(r, g, b) :=
    if (0 <=? h) && (h <? 60) then (c, x, 0)
    else if (60 <=? h) && (h <? 120) then (x, c, 0)
    else if (120 <=? h) && (h <? 180) then (0, c, x)
    else if (180 <=? h) && (h <? 240) then (0, x, c)
    else if (240 <=? h) && (h <? 300) then (x, 0, c)
    else (c, 0, x) in
  let r := padStart2 (toString16 (Math_round ((r + m) * 255))) in
  let g := padStart2 (toString16 (Math_round ((g + m) * 255))) in
  let b := padStart2 (toString16 (Math_round ((b + m) * 255))) in
  ("#" ++ r ++ g ++ b)%string.

(** The adjusted hue, saturation and lightness of
    [calculateComplementaryColor]: the values of its variables [newHue]
    (line 86), [newSaturation] (line 90) and [newLightness] (line 94). *)
Definition newHue (hsl : HSL) : number := rem (h hsl + 180) 360.

Definition newSaturation (hsl : HSL) : number :=
  Math_min2 (Math_max2 (s hsl) 60) 90.

Definition newLightness (hsl : HSL) : number :=
  if l hsl <? 50 then Math_min2 (l hsl + 30) 80 else Math_max2 (l hsl - 30) 30.

(** [calculateComplementaryColor], lines 81-97. *)
Definition calculateComplementaryColor (hexColor : JsValue) : completion string :=
  if js_not hexColor then Return "#6495ED"%string
  else
    hsl <- hexToHSL hexColor ;;
    Return (hslToHex (newHue hsl) (newSaturation hsl) (newLightness hsl)).

(** ** The state of [LogoProvider] (lines 99-143) *)

(** The three [useState] cells. *)
Record LogoState : Type := mkLogoState {
  logoUrl : string;
  dominantColor : JsValue;
  complementaryColor : string
}.

(** The initial values of the cells (lines 100-102). *)
Definition initialState : LogoState :=
  {| logoUrl := "";
     dominantColor := JsString "#282c34";
     complementaryColor := "#ED7D31" |}.

(** The effect of lines 125-128, run after the first render and whenever
    [dominantColor] has changed. *)
Definition complementaryEffect (st : LogoState) : completion LogoState :=
  complementary <- calculateComplementaryColor (dominantColor st) ;;
  Return {| logoUrl := logoUrl st;
            dominantColor := dominantColor st;
            complementaryColor := complementary |}.

(** A successful [fetchHeaderStyle] (lines 113-118): [fullLogoUrl] is the
    URL the source builds from the host, [data.logoUrl] and the clock, and
    [data_dominantColor] is [data.dominantColor], whatever the response
    held.  A failed request leaves the state as it is. *)
Definition headerStyleReceived (fullLogoUrl : string) (data_dominantColor : JsValue)
    (st : LogoState) : LogoState :=
  {| logoUrl := fullLogoUrl;
     dominantColor := data_dominantColor;
     complementaryColor := complementaryColor st |}.

(** ** The built-ins over the integers, for comparison

    [Math.round], [+(x).toFixed(1)] and [%] once more, computed on the
    mathematical value of a number ([n * 2^e] for integers [n] and [e]) with
    unbounded integers and no shortcut.  They are slower than the
    definitions above and agree with them (see [builtins_agree]). *)

Module Exact.

Local Open Scope Z_scope.

(** The value of a finite number as [n * 2^e]. *)
Definition value (x : number) : option (Z * Z) :=
  match Prim2SF x with
  | S754_zero _ => Some (0, 0)
  | S754_finite sg m e => Some (if sg then Z.neg m else Z.pos m, e)
  | _ => None
  end.

(** The number nearest to [p / q] for positive integers [p] and [q]. *)
Definition nearest_quotient (p q : Z) : number :=
  let '(m, e, loc) := SFdiv_core_binary prec emax p 0 q 0 in
  SF2Prim (binary_round_aux prec emax false m e loc).

(** [floor (n * 2^e + 1/2)]. *)
Definition round_half_up_Z (n e : Z) : Z :=
  if 0 <=? e then n * 2 ^ e else (2 * n + 2 ^ (- e)) / 2 ^ (1 - e).

Definition Math_round (x : number) : number :=
  match value x with
  | Some (n, e) =>
      let r := round_half_up_Z n e in
      if r =? 0 then (if n =? 0 then x else if n <? 0 then neg_zero else 0%float)
      else number_of_Z r
  | None => x
  end.

Definition toFixed1 (x : number) : number :=
  match value x with
  | Some (n, e) =>
      let k := round_half_up_Z (10 * Z.abs n) e in
      let v := if k =? 0 then 0%float else nearest_quotient k 10 in
      if n <? 0 then (- v)%float else v
  | None => x
  end.

Definition rem (x y : number) : number :=
  match value x, value y with
  | Some (nx, ex), Some (ny, ey) =>
      if ny =? 0 then nan
      else
        let e := Z.min ex ey in
        let r := Z.rem (nx * 2 ^ (ex - e)) (ny * 2 ^ (ey - e)) in
        if r =? 0 then (if get_sign x then neg_zero else 0%float)
        else SF2Prim (binary_normalize prec emax r e false)
  | Some _, None => if is_nan y then nan else x
  | None, _ => nan
  end.

End Exact.

(** A grid of numbers: the sixteenths from -8 to 8 with their two
    neighbours, and some numbers far from it. *)
Definition grid : list number :=
  flat_map (fun k => let x := (of_uint63 k - 128) / 16 in [x; next_up x; next_down x])
           (map (fun n => Uint63.of_Z (Z.of_nat n)) (seq 0 257))
  ++ [neg_zero; 0.05; 0.15; 0.25; 0.35; 1.005; 17.85; 99.95; 100; 255; 359.5; 1e-300; 1e-7;
      0x1p-1074; 3 * 0x1p-1074; 4503599627370495.5; 4503599627370496; 1000000000000000.1;
      123456789012345.67; 1e21; 1e22; 1e300; -1e300; 1.7e308; infinity; neg_infinity; nan].

Definition divisors : list number :=
  [2; 6; 360; 1; 0.1; 0.3; -7.5; 1e-3; 3 * 0x1p-1074; 1e300; 0; neg_zero; infinity; nan].

Definition same (x y : number) : bool := Leibniz.eqb x y.

Definition agree_on_grid : bool :=
  forallb (fun x =>
    same (Math_round x) (Exact.Math_round x)
    && same (toFixed1 x) (Exact.toFixed1 x)
    && forallb (fun y => same (rem x y) (Exact.rem x y)) divisors) grid.

(** ** The numeric cores of the conversions

    [hexToHSL] after the three [parseInt] calls, and [hslToHex] before the
    three channels are printed. *)

Definition hsl_of_rgb (R G B : number) : HSL :=
  let r := R / 255 in
  let g := G / 255 in
  let b := B / 255 in
  let cmin := Math_min r g b in
  let cmax := Math_max r g b in
  let delta := cmax - cmin in
  let h :=
    if delta =? 0 then 0
    else if cmax =? r then rem ((g - b) / delta) 6
    else if cmax =? g then (b - r) / delta + 2
    else (r - g) / delta + 4 in
  let h := Math_round (h * 60) in
  let h := if h <? 0 then h + 360 else h in
  let l := (cmax + cmin) / 2 in
  let s := if delta =? 0 then 0 else delta / (1 - Math_abs (2 * l - 1)) in
  let s := toFixed1 (s * 100) in
  let l := toFixed1 (l * 100) in
  {| h := h; s := s; l := l |}.

Definition hslToRGB (h s l : number) : number * number * number :=
  let s := s / 100 in
  let l := l / 100 in
  let c := (1 - Math_abs (2 * l - 1)) * s in
  let x := c * (1 - Math_abs (rem (h / 60) 2 - 1)) in
  let m := l - c / 2 in
  let '(r, g, b) :=
    if (0 <=? h) && (h <? 60) then (c, x, 0)
    else if (60 <=? h) && (h <? 120) then (x, c, 0)
    else if (120 <=? h) && (h <? 180) then (0, c, x)
    else if (180 <=? h) && (h <? 240) then (0, x, c)
    else if (240 <=? h) && (h <? 300) then (x, 0, c)
    else (c, 0, x) in
  (Math_round ((r + m) * 255), Math_round ((g + m) * 255), Math_round ((b + m) * 255)).

Definition channel_hex (x : number) : string := padStart2 (toString16 x).

Definition hex_of_rgb (rgb : number * number * number) : string :=
  let '(r, g, b) := rgb in
  ("#" ++ channel_hex r ++ channel_hex g ++ channel_hex b)%string.

(** *** The pieces of [hexToHSL], with the extreme channels given *)

(** The channel [r], [g] or [b] of the byte [k]. *)
Definition chan (k : int) : number := of_uint63 k / 255.

Definition hue_core (r g b cmin cmax : number) : number :=
  let delta := cmax - cmin in
  let h :=
    if delta =? 0 then 0
    else if cmax =? r then rem ((g - b) / delta) 6
    else if cmax =? g then (b - r) / delta + 2
    else (r - g) / delta + 4 in
  let h := Math_round (h * 60) in
  if h <? 0 then h + 360 else h.

Definition sat_core (cmin cmax : number) : number :=
  let delta := cmax - cmin in
  let l := (cmax + cmin) / 2 in
  let s := if delta =? 0 then 0 else delta / (1 - Math_abs (2 * l - 1)) in
  toFixed1 (s * 100).

Definition light_core (cmin cmax : number) : number :=
  toFixed1 ((cmax + cmin) / 2 * 100).

(** *** The pieces of [hslToHex] *)

(** [c] and [m] depend on the saturation and the lightness only, [x] on the
    hue as well. *)
Definition chroma (s l : number) : number :=
  (1 - Math_abs (2 * (l / 100) - 1)) * (s / 100).

Definition offset (s l : number) : number := l / 100 - chroma s l / 2.

Definition mid_component (h c : number) : number :=
  c * (1 - Math_abs (rem (h / 60) 2 - 1)).

Definition print_level (v m : number) : number := Math_round ((v + m) * 255).

(** The six sectors of the hue: where the largest ([c]), the middle ([x])
    and the smallest ([z]) component go. *)
Definition arrange {A : Type} (h : number) (c x z : A) : A * A * A :=
  if (0 <=? h) && (h <? 60) then (c, x, z)
  else if (60 <=? h) && (h <? 120) then (x, c, z)
  else if (120 <=? h) && (h <? 180) then (z, c, x)
  else if (180 <=? h) && (h <? 240) then (z, x, c)
  else if (240 <=? h) && (h <? 300) then (x, z, c)
  else (c, z, x).

(** ** Checks run over all 8-bit channel values *)

(** The integer a non-negative integral number below [2^52] stands for. *)
Definition to_int (x : number) : int :=
  let '(f, e) := frshiftexp x in
  round_half_up (normfr_mantissa f) (2154 - e)%uint63.

(** [x] prints as the two hex digits of the byte [k]: it is the integer [k]
    (or [-0], printed as ["00"]). *)
Definition channel_byte (x : number) : option int :=
  let k := to_int x in
  if (k <? 256)%uint63
     && (Leibniz.eqb x (of_uint63 k) || (Leibniz.eqb x neg_zero && (k =? 0)%uint63))
  then Some k else None.

(** Two hues are neighbours on the colour wheel: at most one degree apart,
    [359] and [0] being neighbours. *)
Definition hue_close (a b : number) : bool :=
  let d := abs (a - b) in (d <=? 1) || (d =? 359).

Definition is_degree (x : number) : bool :=
  let k := to_int x in (k <? 360)%uint63 && (x =? of_uint63 k).

Definition is_percentage (x : number) : bool :=
  let n := to_int (x * 10) in (n <=? 1000)%uint63 && Leibniz.eqb x (of_uint63 n / 10).

(** What [hslToHex] does with a saturation and a lightness, whatever the
    hue: [c] and [m], the bytes printed for the largest and the smallest
    channel, and the channel values [hexToHSL] reads back from them. *)
Record printer : Type := mkPrinter {
  p_c : number;
  p_m : number;
  p_top : int;
  p_bot : int;
  p_ctop : number;
  p_cbot : number
}.

Definition printer_of (s l : number) : option printer :=
  let c := chroma s l in
  let m := offset s l in
  match channel_byte (print_level c m), channel_byte (print_level 0 m) with
  | Some top, Some bot =>
      Some {| p_c := c; p_m := m; p_top := top; p_bot := bot;
              p_ctop := chan top; p_cbot := chan bot |}
  | _, _ => None
  end.

(** The hue that [hexToHSL] reads back from the colour printed for the hue
    [h]: the middle channel prints as a byte between the other two. *)
Definition decoded_hue (p : printer) (h : number) : option number :=
  match channel_byte (print_level (mid_component h (p_c p)) (p_m p)) with
  | Some k =>
      if (p_bot p <=? k)%uint63 && (k <=? p_top p)%uint63 then
        let '(r, g, b) := arrange h (p_ctop p) (chan k) (p_cbot p) in
        Some (hue_core r g b (p_cbot p) (p_ctop p))
      else None
  | None => None
  end.

Definition hue_survives (p : printer) (h : number) : bool :=
  match decoded_hue p h with
  | Some h' => hue_close h' h
  | None => false
  end.

Definition bytes : list int := map (fun n => Uint63.of_Z (Z.of_nat n)) (seq 0 256).

(** [Q] holds of [key mid] for every [mid] of the list; a key equal to the
    one before it is not checked again. *)
Fixpoint run_ok (key : int -> number) (Q : number -> bool) (mids : list int)
    (prev : number) : bool :=
  match mids with
  | [] => true
  | mid :: rest =>
      let h0 := key mid in
      (if Leibniz.eqb h0 prev then true else Q h0) && run_ok key Q rest h0
  end.

Definition all_ok (key : int -> number) (Q : number -> bool) (mids : list int) : bool :=
  match mids with
  | [] => true
  | mid :: rest => Q (key mid) && run_ok key Q rest (key mid)
  end.

(** What is checked of a hue [h0] of a colour with saturation [s] and
    lightness [l]: it is a whole number of degrees, it survives printing and
    reading back, and so does the hue of the complementary colour. *)
Definition hue_ok (p p2 : printer) (h0 : number) : bool :=
  is_degree h0 && hue_survives p h0 && hue_survives p2 (rem (h0 + 180) 360).

(** The saturation and lightness of all colours with extreme channels
    [cmin] and [cmax], and of their complementary colours. *)
Definition sl_ok (s l ns nl : number) : bool :=
  is_percentage s && is_percentage l
  && (60 <=? ns) && (ns <=? 90) && (30 <=? nl) && (nl <=? 80).

Definition between (lo hi : int) : list int :=
  filter (fun mid => (lo <=? mid)%uint63 && (mid <=? hi)%uint63) bytes.

(** Everything checked of the colours with largest byte [hi] and smallest
    byte [lo]; [mid] runs over the bytes between them, and the hue is taken
    for each of the six orders of the channels. *)
Definition pair_ok (lo hi : int) : bool :=
  let cmin := chan lo in
  let cmax := chan hi in
  let s := sat_core cmin cmax in
  let l := light_core cmin cmax in
  let hsl := {| h := 0; s := s; l := l |} in
  let ns := newSaturation hsl in
  let nl := newLightness hsl in
  sl_ok s l ns nl
  && match printer_of s l, printer_of ns nl with
     | Some p, Some p2 =>
         let Q := hue_ok p p2 in
         let mids := between lo hi in
         Leibniz.eqb (sat_core (p_cbot p) (p_ctop p)) s
         && Leibniz.eqb (light_core (p_cbot p) (p_ctop p)) l
         && all_ok (fun mid => hue_core cmax (chan mid) cmin cmin cmax) Q mids
         && all_ok (fun mid => hue_core cmax cmin (chan mid) cmin cmax) Q mids
         && all_ok (fun mid => hue_core (chan mid) cmax cmin cmin cmax) Q mids
         && all_ok (fun mid => hue_core cmin cmax (chan mid) cmin cmax) Q mids
         && all_ok (fun mid => hue_core (chan mid) cmin cmax cmin cmax) Q mids
         && all_ok (fun mid => hue_core cmin (chan mid) cmax cmin cmax) Q mids
     | _, _ => false
     end.

(** [Math.max] and [Math.min] of two channels are the channels of the larger
    and of the smaller byte. *)
Definition minmax_ok (a b : int) : bool :=
  if (a <=? b)%uint63 then
    Leibniz.eqb (Math_max2 (chan a) (chan b)) (chan b)
    && Leibniz.eqb (Math_max2 (chan b) (chan a)) (chan b)
    && Leibniz.eqb (Math_min2 (chan a) (chan b)) (chan a)
    && Leibniz.eqb (Math_min2 (chan b) (chan a)) (chan a)
  else true.

(** ** Well-formed colour strings

    Six hex digits, of either case, with or without a leading ["#"]; the
    bytes they denote. *)

Definition hex_pair (c1 c2 : ascii) : option int :=
  match hex_digit_value c1, hex_digit_value c2 with
  | Some a, Some b => Some (Uint63.of_Z (16 * a + b))
  | _, _ => None
  end.

Definition six_digits (str : string) : option (int * int * int) :=
  match str with
  | String c1 (String c2 (String c3 (String c4 (String c5 (String c6 EmptyString))))) =>
      match hex_pair c1 c2, hex_pair c3 c4, hex_pair c5 c6 with
      | Some R, Some G, Some B => Some (R, G, B)
      | _, _, _ => None
      end
  | _ => None
  end.

Definition rgb_of_hex (hex : string) : option (int * int * int) :=
  match hex with
  | String "#" rest => six_digits rest
  | _ => six_digits hex
  end.

Definition valid_hex_color (hex : string) : bool :=
  match rgb_of_hex hex with
  | Some _ => true
  | None => false
  end.

Definition all_ascii : list ascii := map ascii_of_nat (seq 0 256).

(** [parseInt] reads a pair of hex digits as the byte they denote. *)
Definition parse_ok (c1 c2 : ascii) : bool :=
  match hex_pair c1 c2 with
  | Some k =>
      Leibniz.eqb (parseInt16 (String c1 (String c2 EmptyString))) (of_uint63 k)
      && (k <? 256)%uint63
  | None => true
  end.

(** A byte prints as two hex digits that [parseInt] reads back as the
    byte. *)
Definition print_ok (k : int) : bool :=
  match channel_hex (of_uint63 k) with
  | String c1 (String c2 EmptyString) =>
      Leibniz.eqb (parseInt16 (String c1 (String c2 EmptyString))) (of_uint63 k)
  | _ => false
  end.

(** An achromatic colour has hue 0 and saturation 0. *)
Definition gray_ok (v : int) : bool :=
  let c := hsl_of_rgb (of_uint63 v) (of_uint63 v) (of_uint63 v) in
  Leibniz.eqb (h c) 0 && Leibniz.eqb (s c) 0.

(** ** Properties stated of the conversions *)

(** [(R, G, B)] has the channels [hi], [mid] and [lo] in one of the six
    orders. *)
Definition is_order (R G B hi mid lo : int) : Prop :=
  (R, G, B) = (hi, mid, lo) \/ (R, G, B) = (hi, lo, mid)
  \/ (R, G, B) = (mid, hi, lo) \/ (R, G, B) = (lo, hi, mid)
  \/ (R, G, B) = (mid, lo, hi) \/ (R, G, B) = (lo, mid, hi).

(** What [pair_ok] establishes for the colours between two bytes. *)
Record pair_facts (lo hi : int) : Prop := {
  pf_s := sat_core (chan lo) (chan hi);
  pf_l := light_core (chan lo) (chan hi);
  pf_ns := newSaturation {| h := 0; s := pf_s; l := pf_l |};
  pf_nl := newLightness {| h := 0; s := pf_s; l := pf_l |};
  pf_sl : sl_ok pf_s pf_l pf_ns pf_nl = true;
  pf_printers :
    exists p p2,
      printer_of pf_s pf_l = Some p /\ printer_of pf_ns pf_nl = Some p2
      /\ sat_core (p_cbot p) (p_ctop p) = pf_s
      /\ light_core (p_cbot p) (p_ctop p) = pf_l
      /\ forall R G B mid,
           In mid (between lo hi) -> is_order R G B hi mid lo ->
           hue_ok p p2 (hue_core (chan R) (chan G) (chan B) (chan lo) (chan hi)) = true
}.

(** What holds of the HSL value [hexToHSL] returns for a well-formed
    colour. *)
Record color_facts (c : HSL) : Prop := {
  cf_degree : is_degree (h c) = true;
  cf_sat : is_percentage (s c) = true;
  cf_light : is_percentage (l c) = true;
  cf_newSaturation :
    (60 <=? newSaturation c) = true /\ (newSaturation c <=? 90) = true;
  cf_newLightness :
    (30 <=? newLightness c) = true /\ (newLightness c <=? 80) = true;
  cf_round_trip :
    exists h1,
      hexToHSL_string (hslToHex (h c) (s c) (l c)) = {| h := h1; s := s c; l := l c |}
      /\ hue_close h1 (h c) = true;
  cf_complementary :
    exists c2,
      hexToHSL_string (hslToHex (newHue c) (newSaturation c) (newLightness c)) = c2
      /\ hue_close (h c2) (newHue c) = true
}.

(** The three numbers [hexToHSL] parses from a string, and whether one of
    them is NaN (the two characters of a channel do not start with a hex
    digit). *)
Definition channels (hex : string) : number * number * number :=
  let hex := replace_leading_hash hex in
  (parseInt16 (substring 0 2 hex), parseInt16 (substring 2 4 hex),
   parseInt16 (substring 4 6 hex)).

Definition unparsed (hex : string) : bool :=
  let '(R, G, B) := channels hex in is_nan R || is_nan G || is_nan B.

Definition nan_hsl : HSL := {| h := nan; s := nan; l := nan |}.

Definition is_nan_hsl (c : HSL) : bool := is_nan (h c) && is_nan (s c) && is_nan (l c).

(** Two numbers are within one unit of each other. *)
Definition within_one (a b : number) : bool := abs (a - b) <=? 1.

(** Round-trip stability of a colour, each field compared as a number. *)
Definition round_trip_within_one (hex : string) : Prop :=
  exists c c',
    hexToHSL (JsString hex) = Return c
    /\ hexToHSL (JsString (hslToHex (h c) (s c) (l c))) = Return c'
    /\ within_one (h c') (h c) = true
    /\ within_one (s c') (s c) = true
    /\ within_one (l c') (l c) = true.

(** The hue read back from the complementary colour is the hue of the
    colour turned by exactly 180 degrees. *)
Definition complementary_hue_exact (hex : string) : Prop :=
  exists c out c',
    hexToHSL (JsString hex) = Return c
    /\ calculateComplementaryColor (JsString hex) = Return out
    /\ hexToHSL (JsString out) = Return c'
    /\ (h c' =? rem (h c + 180) 360) = true.

(** A call fails. *)
Definition throws {A : Type} (c : completion A) : Prop := exists e, c = Throw e.

(** The theme the provider shows. *)
Definition theme (st : LogoState) : JsValue * string :=
  (dominantColor st, complementaryColor st).

(** The lower-case form of a string (only the letters [A]-[Z] change). *)
Definition lower_ascii (c : ascii) : ascii :=
  let n := nat_of_ascii c in
  if (65 <=? n)%nat && (n <=? 90)%nat then ascii_of_nat (n + 32) else c.

Fixpoint map_string (f : ascii -> ascii) (str : string) : string :=
  match str with
  | EmptyString => EmptyString
  | String c rest => String (f c) (map_string f rest)
  end.

Definition toLowerCase (str : string) : string := map_string lower_ascii str.

Ltac split_sectors :=
  repeat match goal with
         | |- context [if ?c then _ else _] => destruct c
         end.

(** ** More checks over the channel bytes *)

(** The largest and the smallest of three bytes. *)
Definition byte_max2 (a b : int) : int := if (a <=? b)%uint63 then b else a.
Definition byte_min2 (a b : int) : int := if (a <=? b)%uint63 then a else b.
Definition byte_max (R G B : int) : int := byte_max2 (byte_max2 R G) B.
Definition byte_min (R G B : int) : int := byte_min2 (byte_min2 R G) B.

(** A byte prints as two lower-case hex digits that denote it. *)
Definition print_pair_ok (k : int) : bool :=
  match channel_hex (of_uint63 k) with
  | String c1 (String c2 EmptyString) =>
      match hex_pair c1 c2 with
      | Some k' => (k' =? k)%uint63
      | None => false
      end
      && Ascii.eqb (lower_ascii c1) c1 && Ascii.eqb (lower_ascii c2) c2
  | _ => false
  end.

(** What else is checked of the colours with smallest byte [lo] and largest
    byte [hi]: which of them have saturation 0, lightness 0 and lightness
    100; that [hslToHex] prints their saturation and lightness as a colour
    with the same two extreme bytes; and how far the complementary colour,
    read back, is from the saturation and lightness it was printed from and
    from the lightness of the colour itself. *)
Definition extremes_ok (lo hi : int) : bool :=
  let cmin := chan lo in
  let cmax := chan hi in
  let s := sat_core cmin cmax in
  let l := light_core cmin cmax in
  let hsl := {| h := 0; s := s; l := l |} in
  let ns := newSaturation hsl in
  let nl := newLightness hsl in
  Bool.eqb (s =? 0) (lo =? hi)%uint63
  && Bool.eqb (l =? 0) (hi =? 0)%uint63
  && Bool.eqb (l =? 100) (lo =? 255)%uint63
  && match printer_of s l, printer_of ns nl with
     | Some p, Some p2 =>
         let s2 := sat_core (p_cbot p2) (p_ctop p2) in
         let l2 := light_core (p_cbot p2) (p_ctop p2) in
         (p_top p =? hi)%uint63 && (p_bot p =? lo)%uint63
         && (abs (s2 - ns) <=? 1) && (abs (l2 - nl) <? 0.25)
         && (20 <=? abs (l2 - l)) && negb (Leibniz.eqb l2 l)
     | _, _ => false
     end.

(** What [extremes_ok] establishes of a colour [c] with smallest byte [lo]
    and largest byte [hi], [p] and [p2] being what [hslToHex] does with the
    saturation and lightness of [c] and of its complementary colour. *)
Record extreme_facts (c : HSL) (lo hi : int) (p p2 : printer) : Prop := {
  ef_gray : (s c =? 0) = (lo =? hi)%uint63;
  ef_black : (l c =? 0) = (hi =? 0)%uint63;
  ef_white : (l c =? 100) = (lo =? 255)%uint63;
  ef_top : p_top p = hi;
  ef_bot : p_bot p = lo;
  ef_saturation :
    (abs (sat_core (p_cbot p2) (p_ctop p2) - newSaturation c) <=? 1) = true;
  ef_lightness :
    (abs (light_core (p_cbot p2) (p_ctop p2) - newLightness c) <? 0.25) = true;
  ef_contrast : (20 <=? abs (light_core (p_cbot p2) (p_ctop p2) - l c)) = true;
  ef_differs : light_core (p_cbot p2) (p_ctop p2) <> l c
}.

(** The hue [x] lies between [a] and [b] degrees. *)
Definition in_sector (a b x : number) : bool := (a <=? x) && (x <=? b).

(** The last sector, from 300 degrees up to 0. *)
Definition in_last_sector (x : number) : bool := in_sector 300 359 x || (x =? 0).

(** Two bytes differ by at most 2. *)
Definition near (a b : int) : bool :=
  if (a <=? b)%uint63 then (b - a <=? 2)%uint63 else (a - b <=? 2)%uint63.

Definition near3 (t u : int * int * int) : bool :=
  let '(a, b, c) := t in
  let '(a', b', c') := u in
  near a a' && near b b' && near c c'.

(** The three bytes [hslToHex] prints for the hue [h0], in their places,
    when the hue lies in the sector given. *)
Definition printed_bytes (p : printer) (sector : number -> bool) (h0 : number)
    : option (int * int * int) :=
  if sector h0 then
    match channel_byte (print_level (mid_component h0 (p_c p)) (p_m p)) with
    | Some k => Some (arrange h0 (p_top p) k (p_bot p))
    | None => None
    end
  else None.

(** For every [mid] of the list, the bytes printed for the hue [key mid]
    are within 2 of the bytes [orig mid]; the bytes of a hue equal to the one
    before it are not computed again. *)
Fixpoint channels_run (P : number -> option (int * int * int)) (key : int -> number)
    (orig : int -> int * int * int) (mids : list int) (prev : number)
    (printed : option (int * int * int)) : bool :=
  match mids with
  | [] => true
  | mid :: rest =>
      let h0 := key mid in
      let t := if Leibniz.eqb h0 prev then printed else P h0 in
      match t with
      | Some t' => near3 t' (orig mid)
      | None => false
      end
      && channels_run P key orig rest h0 t
  end.

(** The colours with largest byte [hi] and smallest byte [lo], in each of
    the six orders of the channels: the hue lies in the sector of the order,
    and the colour printed from the HSL value is within 2 of the colour in
    every channel. *)
Definition channels_ok (lo hi : int) : bool :=
  let cmin := chan lo in
  let cmax := chan hi in
  let mids := between lo hi in
  match printer_of (sat_core cmin cmax) (light_core cmin cmax) with
  | Some p =>
      channels_run (printed_bytes p (in_sector 0 60))
        (fun mid => hue_core cmax (chan mid) cmin cmin cmax)
        (fun mid => (hi, mid, lo)) mids nan None
      && channels_run (printed_bytes p in_last_sector)
           (fun mid => hue_core cmax cmin (chan mid) cmin cmax)
           (fun mid => (hi, lo, mid)) mids nan None
      && channels_run (printed_bytes p (in_sector 60 120))
           (fun mid => hue_core (chan mid) cmax cmin cmin cmax)
           (fun mid => (mid, hi, lo)) mids nan None
      && channels_run (printed_bytes p (in_sector 120 180))
           (fun mid => hue_core cmin cmax (chan mid) cmin cmax)
           (fun mid => (lo, hi, mid)) mids nan None
      && channels_run (printed_bytes p (in_sector 240 300))
           (fun mid => hue_core (chan mid) cmin cmax cmin cmax)
           (fun mid => (mid, lo, hi)) mids nan None
      && channels_run (printed_bytes p (in_sector 180 240))
           (fun mid => hue_core cmin (chan mid) cmax cmin cmax)
           (fun mid => (lo, mid, hi)) mids nan None
  | None => false
  end.

(** What [channels_ok] establishes of one colour: its hue [h0] lies in the
    sector, and the bytes printed for it are within 2 of the bytes [orig]
    of the colour. *)
Definition channel_facts (p : printer) (sector : number -> bool) (h0 : number)
    (orig : int * int * int) : Prop :=
  sector h0 = true
  /\ exists k,
       channel_byte (print_level (mid_component h0 (p_c p)) (p_m p)) = Some k
       /\ near3 (arrange h0 (p_top p) k (p_bot p)) orig = true.

(** [hslToHex] at saturation 0, at lightness 0 and at lightness 100, for a
    saturation or lightness of [n] tenths: the chroma [c] is 0, and at
    saturation 0 the one level that is left prints as a byte. *)
Definition achromatic_ok (n : int) : bool :=
  let v := of_uint63 n / 10 in
  Leibniz.eqb (chroma 0 v) 0
  && match channel_byte (print_level 0 (offset 0 v)) with
     | Some _ => true
     | None => false
     end
  && Leibniz.eqb (chroma v 0) 0
  && Leibniz.eqb (chroma v 100) 0.

(** With chroma 0 the middle component is 0 for every whole hue. *)
Definition mid_zero_ok (k : int) : bool :=
  Leibniz.eqb (mid_component (of_uint63 k) 0) 0.

Definition thousand_tenths : list int :=
  map (fun n => Uint63.of_Z (Z.of_nat n)) (seq 0 1001).

Definition degrees : list int :=
  map (fun n => Uint63.of_Z (Z.of_nat n)) (seq 0 360).

(** ** Channels that are not two hex digits *)

(** The integer [k], with a sign. *)
Definition signed (negative : bool) (k : int) : number :=
  if negative then - of_uint63 k else of_uint63 k.

(** [x] is an integer of magnitude up to 255, of either sign. *)
Definition small_integer (x : number) : bool :=
  let k := to_int (abs x) in
  (k <? 256)%uint63 && (Leibniz.eqb x (signed false k) || Leibniz.eqb x (signed true k)).

(** What [parseInt] makes of a string of at most two characters: NaN or such
    an integer. *)
Definition parsed_ok (str : string) : bool :=
  let x := parseInt16 str in is_nan x || small_integer x.

Definition short_parse_ok (c1 : ascii) : bool :=
  parsed_ok (String c1 EmptyString)
  && forallb (fun c2 => parsed_ok (String c1 (String c2 EmptyString))) all_ascii.

(** Of two channels made of such integers [Math.max] and [Math.min] return
    one, and the lightness computed from the two is a number. *)
Definition signed_pair_ok (sa : bool) (a : int) (sb : bool) (b : int) : bool :=
  let x := signed sa a / 255 in
  let y := signed sb b / 255 in
  (Leibniz.eqb (Math_max2 x y) x || Leibniz.eqb (Math_max2 x y) y)
  && (Leibniz.eqb (Math_min2 x y) x || Leibniz.eqb (Math_min2 x y) y)
  && negb (is_nan (light_core x y)).

Definition signed_pairs_ok (a : int) : bool :=
  forallb (fun b =>
    signed_pair_ok false a false b && signed_pair_ok false a true b
    && signed_pair_ok true a false b && signed_pair_ok true a true b) bytes.

(** A whole number of tenths up to 100 is a number. *)
Definition tenth_ok (n : int) : bool := negb (is_nan (of_uint63 n / 10)).

(** ** The characters of a string *)

Fixpoint has_char (c : ascii) (str : string) : bool :=
  match str with
  | EmptyString => false
  | String c' rest => Ascii.eqb c' c || has_char c rest
  end.

(** [parseInt] reads a hex digit followed by a character that is no hex
    digit as the digit alone, unless the two are ["0x"] or ["0X"]. *)
Definition lone_digit_ok (c1 c2 : ascii) : bool :=
  match hex_digit_value c1, hex_digit_value c2 with
  | Some _, None =>
      (Ascii.eqb c1 "0" && (Ascii.eqb c2 "x" || Ascii.eqb c2 "X"))
      || Leibniz.eqb (parseInt16 (String c1 (String c2 EmptyString)))
                     (parseInt16 (String "0" (String c1 EmptyString)))
  | _, _ => true
  end.

(** ** The backend address

    [fetchHeaderStyle] (lines 106-111 of [LogoContext.js]) and [handleUpload]
    of [LogoUploader] choose the backend from [window.location.hostname] in
    the same way. *)

Definition PRODUCTION_HOST : string :=
  "hdfc-assistant-backend-1018963165306.us-central1.run.app".

Definition LOCAL_HOST : string := "localhost:8000".

Definition isProduction (hostname : string) : bool :=
  negb (hostname =? "localhost")%string && negb (hostname =? "127.0.0.1")%string.

Definition BACKEND_HOST (hostname : string) : string :=
  if isProduction hostname then PRODUCTION_HOST else LOCAL_HOST.

Definition HTTP_PROTOCOL (hostname : string) : string :=
  if isProduction hostname then "https" else "http".

(** The template literals of line 115 and of [handleUpload].  [time] is the
    text of [new Date().getTime()] and [data_logoUrl] the text the template
    makes of [data.logoUrl] (["undefined"] when the response has no such
    field). *)
Definition fullLogoUrl (hostname data_logoUrl time : string) : string :=
  (HTTP_PROTOCOL hostname ++ "://" ++ BACKEND_HOST hostname
   ++ data_logoUrl ++ "?t=" ++ time)%string.

Definition uploadUrl (hostname : string) : string :=
  (HTTP_PROTOCOL hostname ++ "://" ++ BACKEND_HOST hostname ++ "/api/upload-logo")%string.

(** ** [fetchHeaderStyle] and the renders of [LogoProvider] *)

(** The body of a response as [response.json()] and line 115 find it: not
    JSON, so that [response.json()] rejects; the JSON [null], so that
    reading [data.logoUrl] throws a [TypeError]; or any other JSON value,
    of which the code reads the fields [logoUrl] and [dominantColor]
    ([undefined] when it has no such field).  [data_logoUrl] is the text
    the template of line 115 makes of [data.logoUrl] (["undefined"] when
    the value has no such field), and [None] when it can make none and
    throws a [TypeError]: an object whose own [toString] or [valueOf] hides
    the inherited one, as the [logoUrl] of [{"logoUrl": {"toString": 1}}]. *)
Inductive ResponseBody : Type :=
  | NotJson
  | JsonNull
  | JsonData (data_logoUrl : option string) (data_dominantColor : JsValue).

(** How the request of line 112 ends: [fetch] rejects, or it resolves to a
    response with its [ok] flag and its body. *)
Inductive HeaderStyleResponse : Type :=
  | NoResponse
  | Response (ok : bool) (body : ResponseBody).

(** What lines 113-115 get from the request: [data.logoUrl] and
    [data.dominantColor], when the response is [ok], its body is JSON other
    than [null] and the template has made a text of [data.logoUrl].  In
    every other case nothing is set: the body of a response that is not
    [ok] is not read, and what is thrown or rejected inside the [try] is
    caught at line 119, before the setters of lines 116 and 117. *)
Definition response_data (r : HeaderStyleResponse) : option (string * JsValue) :=
  match r with
  | Response true (JsonData (Some data_logoUrl) data_dominantColor) =>
      Some (data_logoUrl, data_dominantColor)
  | _ => None
  end.

Definition delivers (r : HeaderStyleResponse) : bool :=
  match response_data r with
  | Some _ => true
  | None => false
  end.

(** [fetchHeaderStyle], lines 104-122; [time] is read at line 115. *)
Definition fetchHeaderStyle (hostname time : string) (r : HeaderStyleResponse)
    (st : LogoState) : LogoState :=
  match response_data r with
  | Some (data_logoUrl, data_dominantColor) =>
      headerStyleReceived (fullLogoUrl hostname data_logoUrl time) data_dominantColor st
  | None => st
  end.

(** [refreshLogo], lines 134-136. *)
Definition refreshLogo := fetchHeaderStyle.

(** [Object.is], by which React compares the dependency [dominantColor] of
    the effect with its value at the render before. *)
Definition Object_is (a b : JsValue) : bool :=
  match a, b with
  | JsUndefined, JsUndefined => true
  | JsNull, JsNull => true
  | JsBoolean x, JsBoolean y => Bool.eqb x y
  | JsNumber x, JsNumber y => Leibniz.eqb x y
  | JsString x, JsString y => (x =? y)%string
  | JsObject x, JsObject y => Nat.eqb x y
  | _, _ => false
  end.

(** The render that follows a change of state: the effect of lines 125-128
    runs when [dominantColor] has changed. *)
Definition rendered (prev st : LogoState) : completion LogoState :=
  if Object_is (dominantColor prev) (dominantColor st) then Return st
  else complementaryEffect st.

(** The effect runs after the first render, before any request has been
    answered. *)
Definition mounted : completion LogoState := complementaryEffect initialState.

(** The requests of a provider, in the order in which they are answered:
    the one of lines 130-132 and those of [refreshLogo], each with the clock
    read at line 115.  An effect that throws ends the run. *)
Fixpoint refreshes (hostname : string) (rs : list (string * HeaderStyleResponse))
    (st : LogoState) : completion LogoState :=
  match rs with
  | [] => Return st
  | (time, r) :: rest =>
      st' <- rendered st (refreshLogo hostname time r st) ;;
      refreshes hostname rest st'
  end.

Definition LogoProvider (hostname : string) (rs : list (string * HeaderStyleResponse))
    : completion LogoState :=
  st <- mounted ;; refreshes hostname rs st.

(** A value that is neither falsy nor a string: [true], a number other than
    zero and NaN, an array or an object. *)
Definition truthy_non_string (v : JsValue) : bool :=
  match v with
  | JsBoolean b => b
  | JsNumber x => negb (is_zero x || is_nan x)
  | JsObject _ => true
  | _ => false
  end.

(** A response that delivers such a value as [dominantColor]. *)
Definition breaks_effect (r : HeaderStyleResponse) : bool :=
  match response_data r with
  | Some (_, v) => truthy_non_string v
  | None => false
  end.

(** The logo URL and the dominant colour after the responses [rs], each set
    anew by a response that delivers data and left as they are by every
    other; [last_style] starts from those of [initialState]. *)
Definition styles (hostname : string) (rs : list (string * HeaderStyleResponse))
    (style : string * JsValue) : string * JsValue :=
  fold_left
    (fun style tr =>
       match response_data (snd tr) with
       | Some (data_logoUrl, data_dominantColor) =>
           (fullLogoUrl hostname data_logoUrl (fst tr), data_dominantColor)
       | None => style
       end)
    rs style.

Definition last_style (hostname : string) (rs : list (string * HeaderStyleResponse))
    : string * JsValue :=
  styles hostname rs (logoUrl initialState, dominantColor initialState).

(** The complementary colour of a state is the one computed from its
    dominant colour. *)
Definition settled (st : LogoState) : Prop :=
  calculateComplementaryColor (dominantColor st) = Return (complementaryColor st).

(** [Header]: the [src] of the [<img>] it renders, if it renders one
    ([logoUrl && <img ... />]). *)
Definition Header_img (st : LogoState) : option string :=
  match logoUrl st with
  | EmptyString => None
  | src => Some src
  end.

(** ** [LogoUploader] *)

(** Of the selected file the component uses that there is one, and its
    name. *)
Record File : Type := mkFile { name : string }.

Record Feedback : Type := mkFeedback { message : string; type : string }.

(** The [useState] cells [file], [feedback], [uploading] and
    [uploadProgress], and the number of intervals set at line 55 that have
    not been cleared.  ([preview] is an object URL of [file], kept by the
    effect of lines 12-23.) *)
Record Uploader : Type := mkUploader {
  file : option File;
  feedback : Feedback;
  uploading : bool;
  uploadProgress : number;
  progressIntervals : nat
}.

Definition initialUploader : Uploader :=
  {| file := None;
     feedback := {| message := ""; type := "" |};
     uploading := false;
     uploadProgress := 0;
     progressIntervals := 0%nat |}.

(** [handleFileChange], lines 25-32; [selectedFile] is [e.target.files[0]]. *)
Definition handleFileChange (selectedFile : option File) (st : Uploader) : Uploader :=
  match selectedFile with
  | Some f =>
      {| file := Some f;
         feedback := {| message := ""; type := "" |};
         uploading := uploading st;
         uploadProgress := 0;
         progressIntervals := progressIntervals st |}
  | None => st
  end.

(** [handleUpload] up to its [await], lines 34-62: the new state and the
    URL the file is posted to, if it is posted. *)
Definition handleUpload (hostname : string) (st : Uploader) : Uploader * option string :=
  match file st with
  | None =>
      ({| file := file st;
          feedback := {| message := "Please select a file first!"; type := "error" |};
          uploading := uploading st;
          uploadProgress := uploadProgress st;
          progressIntervals := progressIntervals st |}, None)
  | Some _ =>
      ({| file := file st;
          feedback := feedback st;
          uploading := true;
          uploadProgress := 10;
          progressIntervals := S (progressIntervals st) |}, Some (uploadUrl hostname))
  end.

(** The updater of lines 56-59; [random] is the value of [Math.random()]. *)
Definition progress_step (random prev : number) : number :=
  let newProgress := prev + random * 15 in
  if 90 <=? newProgress then 90 else newProgress.

(** An interval fires (there is one to fire). *)
Definition interval_fires (random : number) (st : Uploader) : Uploader :=
  match progressIntervals st with
  | O => st
  | S _ =>
      {| file := file st;
         feedback := feedback st;
         uploading := uploading st;
         uploadProgress := progress_step random (uploadProgress st);
         progressIntervals := progressIntervals st |}
  end.

(** How the [fetch] of line 62 ends. *)
Inductive UploadOutcome : Type :=
  | Responded (ok : bool)
  | Rejected.

(** [handleUpload] after its [await], lines 67-84: the new state and
    whether [onUploadSuccess], when there is one, is called.  The interval is
    cleared at line 67, which a rejected [fetch] does not reach.  (The check
    mark and the cross that open the messages are held as their UTF-8
    bytes.) *)
Definition handleUpload_settled (o : UploadOutcome) (st : Uploader) : Uploader * bool :=
  match o with
  | Responded ok =>
      ({| file := file st;
          feedback :=
            if ok then {| message := "✓ Logo uploaded successfully!"; type := "success" |}
            else {| message := "✗ Logo upload failed. Please try again."; type := "error" |};
          uploading := false;
          uploadProgress := 100;
          progressIntervals := Nat.pred (progressIntervals st) |}, ok)
  | Rejected =>
      ({| file := file st;
          feedback :=
            {| message := "✗ An error occurred while uploading the logo."; type := "error" |};
          uploading := false;
          uploadProgress := uploadProgress st;
          progressIntervals := progressIntervals st |}, false)
  end.

(** The timer of line 84 fires. *)
Definition reset_timer_fires (st : Uploader) : Uploader :=
  {| file := file st;
     feedback := feedback st;
     uploading := uploading st;
     uploadProgress := 0;
     progressIntervals := progressIntervals st |}.

(** What the component renders of its state (lines 113-139): the button is
    disabled, the progress bar is there, the feedback is there. *)
Definition button_disabled (st : Uploader) : bool :=
  match file st with
  | None => true
  | Some _ => uploading st
  end.

Definition progress_bar_shown (st : Uploader) : bool := 0 <? uploadProgress st.

Definition feedback_shown (st : Uploader) : bool :=
  match message (feedback st) with
  | EmptyString => false
  | _ => true
  end.

(** A run of intervals firing, one value of [Math.random()] each. *)
Definition intervals_fire (randoms : list number) (st : Uploader) : Uploader :=
  fold_left (fun st random => interval_fires random st) randoms st.

(** One upload from start to end: [handleUpload] is called and, when it posts
    the file, the interval fires for each of [randoms], the [fetch] ends
    with [o], and the timer of line 84 fires.  The result is the state and
    whether [onUploadSuccess] has been called. *)
Definition upload_run (hostname : string) (randoms : list number) (o : UploadOutcome)
    (st : Uploader) : Uploader * bool :=
  match handleUpload hostname st with
  | (st1, Some _) =>
      let '(st2, called) := handleUpload_settled o (intervals_fire randoms st1) in
      (reset_timer_fires st2, called)
  | (st1, None) => (st1, false)
  end.

Definition upload (hostname : string) (randoms : list number) (o : UploadOutcome)
    (st : Uploader) : Uploader :=
  fst (upload_run hostname randoms o st).

Definition calls_onUploadSuccess (hostname : string) (randoms : list number)
    (o : UploadOutcome) (st : Uploader) : bool :=
  snd (upload_run hostname randoms o st).

(** ** Examples of the built-ins and of the conversions *)

Example round_ex1 : Math_round 2.5 = 3. Proof. reflexivity. Qed.
Example round_ex2 : Math_round (-2.5) = -2. Proof. reflexivity. Qed.
Example round_ex3 : Math_round (-0.5) = neg_zero. Proof. reflexivity. Qed.
Example round_ex4 : Math_round 0.49999999999999994 = 0. Proof. reflexivity. Qed.
Example round_ex5 : Math_round 7.65 = 8. Proof. reflexivity. Qed.
Example round_ex6 : Math_round (-0.235) = neg_zero. Proof. reflexivity. Qed.
Example round_ex7 : Math_round 1e-300 = 0. Proof. reflexivity. Qed.
Example round_ex8 : Math_round 4503599627370495.5 = 4503599627370496. Proof. reflexivity. Qed.
Example rem_ex1 : rem 5.5 2 = 1.5. Proof. reflexivity. Qed.
Example rem_ex2 : rem (-5.5) 2 = -1.5. Proof. reflexivity. Qed.
Example rem_ex3 : rem 539 360 = 179. Proof. reflexivity. Qed.
Example rem_ex4 : rem (-4) 2 = neg_zero. Proof. reflexivity. Qed.
Example rem_ex5 : rem 1e300 7 = 1. Proof. vm_compute. reflexivity. Qed.
Example rem_ex7 : rem 1e22 0.3 = 0.14154171886050337. Proof. vm_compute. reflexivity. Qed.
Example rem_ex8 : rem (7 * 0x1p-1074) (3 * 0x1p-1074) = 0x1p-1074. Proof. vm_compute. reflexivity. Qed.
Example rem_ex9 : rem 1.7e308 (3 * 0x1p-1074) = 2 * 0x1p-1074. Proof. vm_compute. reflexivity. Qed.
Example rem_ex10 : rem 123456.789 1e-3 = 1.7374062258324052e-12. Proof. vm_compute. reflexivity. Qed.
Example rem_ex11 : rem 3 infinity = 3 /\ is_nan (rem infinity 3) = true /\ is_nan (rem 3 0) = true. Proof. repeat split. Qed.
Example rem_ex6 : rem 0.3 0.1 = 0.09999999999999998. Proof. reflexivity. Qed.
Example round_ex9 : Math_round neg_zero = neg_zero /\ Math_round 0 = 0. Proof. split; reflexivity. Qed.
Example round_ex10 : Math_round infinity = infinity /\ is_nan (Math_round nan) = true. Proof. split; reflexivity. Qed.
Example round_ex11 : Math_round (-1.5) = -1 /\ Math_round 1.5 = 2. Proof. split; reflexivity. Qed.
Example rem_ex12 : rem neg_zero 3 = neg_zero /\ is_nan (rem 0 0) = true /\ is_nan (rem infinity infinity) = true. Proof. repeat split. Qed.
Example toFixed_ex7 : toFixed1 neg_zero = 0 /\ toFixed1 infinity = infinity /\ toFixed1 1e21 = 1e21. Proof. repeat split. Qed.
Example toFixed_ex8 : toFixed1 17.84999999999999 = 17.8 /\ toFixed1 17.85 = 17.9. Proof. split; reflexivity. Qed.
Example toFixed_ex1 : toFixed1 0.05 = 0.1. Proof. reflexivity. Qed.
Example toFixed_ex2 : toFixed1 1.005 = 1. Proof. reflexivity. Qed.
Example toFixed_ex3 : toFixed1 (-0.01) = neg_zero. Proof. reflexivity. Qed.
Example toFixed_ex4 : toFixed1 89.54248366013073 = 89.5. Proof. reflexivity. Qed.
Example toFixed_ex5 : toFixed1 0.25 = 0.3. Proof. reflexivity. Qed.
Example toFixed_ex6 : toFixed1 1000000000000000.1 = 1000000000000000.1. Proof. vm_compute. reflexivity. Qed.

Example parseInt_ex1 : parseInt16 "ff" = 255. Proof. reflexivity. Qed.
Example parseInt_ex2 : parseInt16 "5z" = 5. Proof. reflexivity. Qed.
Example parseInt_ex3 : is_nan (parseInt16 "zz") = true. Proof. reflexivity. Qed.
Example parseInt_ex4 : is_nan (parseInt16 "") = true. Proof. reflexivity. Qed.
Example parseInt_ex5 : parseInt16 "-0" = neg_zero. Proof. reflexivity. Qed.
Example parseInt_ex6 : parseInt16 " F" = 15. Proof. reflexivity. Qed.
Example parseInt_ex7 : is_nan (parseInt16 "0x") = true. Proof. reflexivity. Qed.
Example parseInt_ex8 : parseInt16 "-0x1F" = -31. Proof. reflexivity. Qed.
Example toString16_ex1 : toString16 255 = "ff"%string. Proof. reflexivity. Qed.
Example toString16_ex2 : padStart2 (toString16 8) = "08"%string. Proof. reflexivity. Qed.
Example toString16_ex3 : padStart2 (toString16 nan) = "NaN"%string. Proof. reflexivity. Qed.
Example toString16_ex4 : toString16 (-5) = "-5"%string. Proof. reflexivity. Qed.
Example toString16_ex5 : toString16 neg_zero = "0"%string. Proof. reflexivity. Qed.
Example toString16_ex6 : toString16 4096 = "1000"%string. Proof. reflexivity. Qed.
Example toString16_ex7 : toString16 1e21 = "3635c9adc5dea00000"%string. Proof. vm_compute. reflexivity. Qed.

Example hexToHSL_red :
  hexToHSL (JsString "#ff0000") = Return {| h := 0; s := 100; l := 50 |}.
Proof. reflexivity. Qed.

Example hexToHSL_default :
  hexToHSL (JsString "#282c34") = Return {| h := 220; s := 13; l := 18 |}.
Proof. reflexivity. Qed.

Example hexToHSL_b48c8d :
  hexToHSL (JsString "#b48c8d") = Return {| h := 359; s := 21.1; l := 62.7 |}.
Proof. reflexivity. Qed.

Example hslToHex_ex : hslToHex 359 21.1 62.7 = "#b48c8c"%string.
Proof. reflexivity. Qed.

Example complementary_red :
  calculateComplementaryColor (JsString "#ff0000") = Return "#089191"%string.
Proof. reflexivity. Qed.

Example complementary_malformed :
  calculateComplementaryColor (JsString "#zzz") = Return "#NaNNaNNaN"%string.
Proof. reflexivity. Qed.

Example hexToHSL_negative_zero : h (hexToHSL_string "#780001") = neg_zero.
Proof. reflexivity. Qed.

Example hexToHSL_prefix : hexToHSL_string "#12345z" = hexToHSL_string "#123405".
Proof. reflexivity. Qed.

Example hexToHSL_undefined : hexToHSL JsUndefined = Throw TypeError.
Proof. reflexivity. Qed.

Example complementary_number :
  calculateComplementaryColor (JsNumber 5) = Throw TypeError
  /\ calculateComplementaryColor (JsNumber 0) = Return "#6495ED"%string.
Proof. split; reflexivity. Qed.

(** The built-ins agree with their definitions over the integers. *)
Lemma builtins_agree : agree_on_grid = true.
Proof. vm_compute. reflexivity. Qed.

(** ** Soundness of the checks *)

Section Bytes.

Local Open Scope Z_scope.

Lemma in_bytes (k : int) : In k bytes <-> to_Z k < 256.
Proof.
  unfold bytes. rewrite in_map_iff. split.
  - intros (n & <- & Hn). apply in_seq in Hn.
    rewrite Uint63.of_Z_spec, Z.mod_small; [lia|].
    change wB with 9223372036854775808. lia.
  - intros Hk. exists (Z.to_nat (to_Z k)).
    pose proof (Uint63.to_Z_bounded k) as Hb. split.
    + rewrite Z2Nat.id by lia. apply Uint63.of_to_Z.
    + apply in_seq. lia.
Qed.

Lemma in_between (lo hi mid : int) :
  to_Z lo <= to_Z mid <= to_Z hi -> to_Z hi < 256 -> In mid (between lo hi).
Proof.
  intros Hm Hh. unfold between. apply filter_In. split.
  - apply in_bytes. lia.
  - apply andb_true_intro. split; apply Uint63.leb_spec; lia.
Qed.

End Bytes.

Lemma run_ok_sound (key : int -> number) (Q : number -> bool) (mids : list int) :
  forall prev, Q prev = true -> run_ok key Q mids prev = true ->
  forall mid, In mid mids -> Q (key mid) = true.
Proof.
  induction mids as [|m0 rest IH]; intros prev Hprev Hrun mid Hin.
  - destruct Hin.
  - cbn [run_ok] in Hrun. apply andb_prop in Hrun as [Hhead Hrest].
    assert (Hm0 : Q (key m0) = true).
    { destruct (Leibniz.eqb (key m0) prev) eqn:E; [|exact Hhead].
      apply Leibniz.eqb_spec in E. rewrite E. exact Hprev. }
    destruct Hin as [<- | Hin]; [exact Hm0|].
    exact (IH (key m0) Hm0 Hrest mid Hin).
Qed.

Lemma all_ok_sound (key : int -> number) (Q : number -> bool) (mids : list int) :
  all_ok key Q mids = true -> forall mid, In mid mids -> Q (key mid) = true.
Proof.
  destruct mids as [|m0 rest]; intros Hall mid Hin.
  - destruct Hin.
  - cbn [all_ok] in Hall. apply andb_prop in Hall as [Hhead Hrest].
    destruct Hin as [<- | Hin]; [exact Hhead|].
    exact (run_ok_sound key Q rest (key m0) Hhead Hrest mid Hin).
Qed.

Lemma hsl_of_rgb_core (R G B : number) :
  hsl_of_rgb R G B =
  let r := R / 255 in
  let g := G / 255 in
  let b := B / 255 in
  let cmin := Math_min r g b in
  let cmax := Math_max r g b in
  {| h := hue_core r g b cmin cmax; s := sat_core cmin cmax; l := light_core cmin cmax |}.
Proof. reflexivity. Qed.

Lemma minmax_table :
  forallb (fun a => forallb (fun b => minmax_ok a b) bytes) bytes = true.
Proof. vm_compute. reflexivity. Qed.

Lemma minmax_le (a b : int) :
  (to_Z a <= to_Z b)%Z -> (to_Z b < 256)%Z ->
  Math_max2 (chan a) (chan b) = chan b /\ Math_max2 (chan b) (chan a) = chan b
  /\ Math_min2 (chan a) (chan b) = chan a /\ Math_min2 (chan b) (chan a) = chan a.
Proof.
  intros Hab Hb.
  assert (Ha : In a bytes) by (apply in_bytes; lia).
  assert (Hb' : In b bytes) by (apply in_bytes; lia).
  pose proof (proj1 (forallb_forall _ _) minmax_table a Ha) as T.
  cbv beta in T.
  pose proof (proj1 (forallb_forall _ _) T b Hb') as T'. clear T. rename T' into T.
  unfold minmax_ok in T.
  replace (a <=? b)%uint63 with true in T by (symmetry; apply Uint63.leb_spec; exact Hab).
  repeat (apply andb_prop in T; destruct T as [T ?]).
  repeat split; apply Leibniz.eqb_spec; assumption.
Qed.

Lemma sort3 (R G B : int) :
  exists hi mid lo,
    (to_Z lo <= to_Z mid <= to_Z hi)%Z /\ is_order R G B hi mid lo.
Proof.
  unfold is_order.
  destruct (Z_le_gt_dec (to_Z R) (to_Z G)), (Z_le_gt_dec (to_Z G) (to_Z B)),
    (Z_le_gt_dec (to_Z R) (to_Z B)).
  - exists B, G, R. split; [lia|]. tauto.
  - exists B, G, R. split; [lia|]. tauto.
  - exists G, B, R. split; [lia|]. tauto.
  - exists G, R, B. split; [lia|]. tauto.
  - exists B, R, G. split; [lia|]. tauto.
  - exists R, B, G. split; [lia|]. tauto.
  - exists R, G, B. split; [lia|]. tauto.
  - exists R, G, B. split; [lia|]. tauto.
Qed.

Lemma order_bytes (R G B hi mid lo : int) :
  is_order R G B hi mid lo ->
  (to_Z R < 256)%Z -> (to_Z G < 256)%Z -> (to_Z B < 256)%Z ->
  (to_Z hi < 256)%Z /\ (to_Z mid < 256)%Z /\ (to_Z lo < 256)%Z.
Proof.
  unfold is_order.
  intros [E|[E|[E|[E|[E|E]]]]] HR HG HB; injection E as -> -> ->; auto.
Qed.

Lemma order_minmax (R G B hi mid lo : int) :
  is_order R G B hi mid lo ->
  (to_Z lo <= to_Z mid <= to_Z hi)%Z -> (to_Z hi < 256)%Z ->
  Math_max (chan R) (chan G) (chan B) = chan hi
  /\ Math_min (chan R) (chan G) (chan B) = chan lo.
Proof.
  intros Ho Hs Hh.
  destruct (minmax_le lo mid ltac:(lia) ltac:(lia)) as (A1 & A2 & A3 & A4).
  destruct (minmax_le mid hi ltac:(lia) ltac:(lia)) as (B1 & B2 & B3 & B4).
  destruct (minmax_le lo hi ltac:(lia) ltac:(lia)) as (C1 & C2 & C3 & C4).
  destruct (minmax_le lo lo ltac:(lia) ltac:(lia)) as (D1 & _ & D3 & _).
  destruct (minmax_le hi hi ltac:(lia) ltac:(lia)) as (E1 & _ & E3 & _).
  unfold Math_max, Math_min, is_order in *.
  destruct Ho as [E|[E|[E|[E|[E|E]]]]]; injection E as -> -> ->;
    repeat match goal with H : _ = chan _ |- _ => rewrite H end;
    split; reflexivity.
Qed.

Lemma pair_ok_elim (lo hi : int) : pair_ok lo hi = true -> pair_facts lo hi.
Proof.
  unfold pair_ok. intros H.
  apply andb_prop in H as [Hsl H].
  constructor; [exact Hsl|].
  destruct (printer_of (sat_core (chan lo) (chan hi)) (light_core (chan lo) (chan hi)))
    as [p|]; [|discriminate].
  destruct (printer_of _ _) as [p2|]; [|discriminate].
  repeat (apply andb_prop in H; destruct H as [H ?]).
  exists p, p2. repeat split; try (apply Leibniz.eqb_spec; assumption).
  intros R G B mid Hmid Ho.
  repeat match goal with
         | A : all_ok _ _ _ = true |- _ =>
             apply all_ok_sound with (mid := mid) in A; [|exact Hmid]
         end.
  unfold is_order in Ho.
  destruct Ho as [E|[E|[E|[E|[E|E]]]]]; injection E as -> -> ->; assumption.
Qed.

(** *** Strings *)

Lemma in_all_ascii (c : ascii) : In c all_ascii.
Proof.
  unfold all_ascii. apply in_map_iff. exists (nat_of_ascii c). split.
  - apply ascii_nat_embedding.
  - apply in_seq. pose proof (nat_ascii_bounded c). lia.
Qed.

Lemma parse_table :
  forallb (fun c1 => forallb (fun c2 => parse_ok c1 c2) all_ascii) all_ascii = true.
Proof. vm_compute. reflexivity. Qed.

Lemma parse_hex_pair (c1 c2 : ascii) (k : int) :
  hex_pair c1 c2 = Some k ->
  parseInt16 (String c1 (String c2 EmptyString)) = of_uint63 k /\ (to_Z k < 256)%Z.
Proof.
  intros Hk.
  pose proof (proj1 (forallb_forall _ _) parse_table c1 (in_all_ascii c1)) as T.
  cbv beta in T.
  pose proof (proj1 (forallb_forall _ _) T c2 (in_all_ascii c2)) as T2.
  unfold parse_ok in T2. rewrite Hk in T2.
  apply andb_prop in T2 as [T2 T3]. split.
  - apply Leibniz.eqb_spec. exact T2.
  - apply Uint63.ltb_spec in T3. exact T3.
Qed.

Lemma print_table : forallb print_ok bytes = true.
Proof. vm_compute. reflexivity. Qed.

Lemma channel_byte_elim (v : number) (k : int) :
  channel_byte v = Some k ->
  (to_Z k < 256)%Z /\ channel_hex v = channel_hex (of_uint63 k).
Proof.
  unfold channel_byte. intros H.
  destruct ((to_int v <? 256)%uint63) eqn:Hlt; [|discriminate].
  cbn [andb] in H.
  destruct (Leibniz.eqb v (of_uint63 (to_int v))) eqn:E1.
  - cbn [orb] in H. injection H as <-. split.
    + apply Uint63.ltb_spec in Hlt. exact Hlt.
    + apply Leibniz.eqb_spec in E1. rewrite <- E1. reflexivity.
  - cbn [orb] in H.
    destruct (Leibniz.eqb v neg_zero) eqn:E2; [|discriminate].
    cbn [andb] in H.
    destruct ((to_int v =? 0)%uint63) eqn:E3; [|discriminate].
    injection H as <-. split.
    + apply Uint63.ltb_spec in Hlt. exact Hlt.
    + apply Leibniz.eqb_spec in E2. apply Uint63.eqb_spec in E3.
      rewrite E3, E2. reflexivity.
Qed.

Lemma channel_hex_parse (v : number) (k : int) :
  channel_byte v = Some k ->
  exists c1 c2,
    channel_hex v = String c1 (String c2 EmptyString)
    /\ parseInt16 (String c1 (String c2 EmptyString)) = of_uint63 k.
Proof.
  intros H. apply channel_byte_elim in H as [Hk ->].
  pose proof (proj1 (forallb_forall _ _) print_table k (proj2 (in_bytes k) Hk)) as T.
  unfold print_ok in T.
  destruct (channel_hex (of_uint63 k)) as [|c1 [|c2 [|c3 rest]]]; try discriminate.
  exists c1, c2. split; [reflexivity|].
  apply Leibniz.eqb_spec. exact T.
Qed.

Lemma hexToHSL_string_six (c1 c2 c3 c4 c5 c6 : ascii) (hex : string) :
  replace_leading_hash hex
  = String c1 (String c2 (String c3 (String c4 (String c5 (String c6 EmptyString))))) ->
  hexToHSL_string hex
  = hsl_of_rgb (parseInt16 (String c1 (String c2 EmptyString)))
               (parseInt16 (String c3 (String c4 EmptyString)))
               (parseInt16 (String c5 (String c6 EmptyString))).
Proof.
  intros E. unfold hexToHSL_string. rewrite E. reflexivity.
Qed.

Lemma hexToHSL_string_printed (a b c : number) (ka kb kc : int) :
  channel_byte a = Some ka -> channel_byte b = Some kb -> channel_byte c = Some kc ->
  hexToHSL_string (hex_of_rgb (a, b, c))
  = hsl_of_rgb (of_uint63 ka) (of_uint63 kb) (of_uint63 kc).
Proof.
  intros Ha Hb Hc.
  apply channel_hex_parse in Ha as (a1 & a2 & Ea & Pa).
  apply channel_hex_parse in Hb as (b1 & b2 & Eb & Pb).
  apply channel_hex_parse in Hc as (c1 & c2 & Ec & Pc).
  rewrite <- Pa, <- Pb, <- Pc.
  apply hexToHSL_string_six.
  unfold hex_of_rgb. rewrite Ea, Eb, Ec. reflexivity.
Qed.

Lemma rgb_of_hex_strip (hex : string) :
  rgb_of_hex hex = six_digits (replace_leading_hash hex).
Proof.
  destruct hex as [|[[] [] [] [] [] [] [] []] rest]; reflexivity.
Qed.

Lemma six_digits_elim (str : string) (R G B : int) :
  six_digits str = Some (R, G, B) ->
  exists c1 c2 c3 c4 c5 c6,
    str = String c1 (String c2 (String c3 (String c4 (String c5 (String c6 EmptyString)))))
    /\ hex_pair c1 c2 = Some R /\ hex_pair c3 c4 = Some G /\ hex_pair c5 c6 = Some B.
Proof.
  destruct str as [|c1 [|c2 [|c3 [|c4 [|c5 [|c6 [|c7 rest]]]]]]]; try discriminate.
  cbn [six_digits].
  destruct (hex_pair c1 c2) as [r|] eqn:E1; [|discriminate].
  destruct (hex_pair c3 c4) as [g|] eqn:E2; [|discriminate].
  destruct (hex_pair c5 c6) as [b|] eqn:E3; [|discriminate].
  intros E. injection E as <- <- <-.
  exists c1, c2, c3, c4, c5, c6. auto.
Qed.

(** On a well-formed string [hexToHSL] is the numeric core at the bytes the
    string denotes. *)
Lemma hexToHSL_string_valid (hex : string) (R G B : int) :
  rgb_of_hex hex = Some (R, G, B) ->
  hexToHSL_string hex = hsl_of_rgb (of_uint63 R) (of_uint63 G) (of_uint63 B)
  /\ (to_Z R < 256)%Z /\ (to_Z G < 256)%Z /\ (to_Z B < 256)%Z.
Proof.
  intros H.
  assert (Hs : six_digits (replace_leading_hash hex) = Some (R, G, B)).
  { rewrite <- rgb_of_hex_strip. exact H. }
  apply six_digits_elim in Hs as (c1 & c2 & c3 & c4 & c5 & c6 & E & H1 & H2 & H3).
  apply parse_hex_pair in H1 as [P1 B1].
  apply parse_hex_pair in H2 as [P2 B2].
  apply parse_hex_pair in H3 as [P3 B3].
  rewrite (hexToHSL_string_six _ _ _ _ _ _ _ E), P1, P2, P3. auto.
Qed.

(** *** Printing a colour and reading it back *)

Lemma hslToHex_unfold (h s l : number) :
  hslToHex h s l = hex_of_rgb (hslToRGB h s l).
Proof.
  unfold hslToHex, hslToRGB, hex_of_rgb, channel_hex. cbv zeta.
  split_sectors; reflexivity.
Qed.

Lemma hslToRGB_arrange (h s l : number) :
  hslToRGB h s l =
  arrange h (print_level (chroma s l) (offset s l))
    (print_level (mid_component h (chroma s l)) (offset s l))
    (print_level 0 (offset s l)).
Proof.
  unfold hslToRGB, arrange, print_level, mid_component, offset, chroma. cbv zeta.
  split_sectors; reflexivity.
Qed.

Lemma read_back (a b c : number) (ka kb kc top k bot : int) :
  channel_byte a = Some ka -> channel_byte b = Some kb -> channel_byte c = Some kc ->
  is_order ka kb kc top k bot ->
  (to_Z bot <= to_Z k <= to_Z top)%Z -> (to_Z top < 256)%Z ->
  hexToHSL_string (hex_of_rgb (a, b, c))
  = {| h := hue_core (chan ka) (chan kb) (chan kc) (chan bot) (chan top);
       s := sat_core (chan bot) (chan top);
       l := light_core (chan bot) (chan top) |}.
Proof.
  intros Ha Hb Hc Ho Hs Ht.
  rewrite (hexToHSL_string_printed _ _ _ _ _ _ Ha Hb Hc), hsl_of_rgb_core.
  cbv zeta. fold (chan ka) (chan kb) (chan kc).
  destruct (order_minmax _ _ _ _ _ _ Ho Hs Ht) as [-> ->]. reflexivity.
Qed.

Lemma decoded_hue_sound (s l : number) (p : printer) (h0 h1 : number) :
  printer_of s l = Some p -> decoded_hue p h0 = Some h1 ->
  hexToHSL_string (hslToHex h0 s l)
  = {| h := h1; s := sat_core (p_cbot p) (p_ctop p); l := light_core (p_cbot p) (p_ctop p) |}.
Proof.
  unfold printer_of. intros Hp Hd.
  destruct (channel_byte (print_level (chroma s l) (offset s l))) as [top|] eqn:Htop;
    [|discriminate].
  destruct (channel_byte (print_level 0 (offset s l))) as [bot|] eqn:Hbot;
    [|discriminate].
  injection Hp as <-. unfold decoded_hue in Hd. cbn [p_c p_m p_top p_bot p_ctop p_cbot] in *.
  destruct (channel_byte (print_level (mid_component h0 (chroma s l)) (offset s l)))
    as [k|] eqn:Hk; [|discriminate].
  destruct ((bot <=? k)%uint63 && (k <=? top)%uint63) eqn:Hr; [|discriminate].
  apply andb_prop in Hr as [Hr1 Hr2].
  apply Uint63.leb_spec in Hr1. apply Uint63.leb_spec in Hr2.
  pose proof (proj1 (channel_byte_elim _ _ Htop)) as Ht.
  rewrite hslToHex_unfold, hslToRGB_arrange.
  unfold arrange in *.
  split_sectors; injection Hd as <-;
    (erewrite read_back; [reflexivity | eassumption | eassumption | eassumption
                         | unfold is_order; auto 10 | lia | lia]).
Qed.

(** *** The checks, run *)

Lemma gray_table : forallb gray_ok bytes = true.
Proof. vm_compute. reflexivity. Qed.

(** Every pair of a smallest and a largest byte passes [pair_ok]: all
    colours are covered. *)
Lemma all_pairs :
  forallb (fun hi =>
    forallb (fun lo => if (lo <=? hi)%uint63 then pair_ok lo hi else true) bytes)
    bytes = true.
Proof. vm_compute. reflexivity. Qed.

(** *** All colours *)

Lemma pair_ok_bytes (lo hi : int) :
  (to_Z lo <= to_Z hi)%Z -> (to_Z hi < 256)%Z -> pair_ok lo hi = true.
Proof.
  intros Hlh Hh.
  assert (Hhi : In hi bytes) by (apply in_bytes; lia).
  assert (Hlo : In lo bytes) by (apply in_bytes; lia).
  pose proof (proj1 (forallb_forall _ _) all_pairs hi Hhi) as T.
  cbv beta in T.
  pose proof (proj1 (forallb_forall _ _) T lo Hlo) as T2.
  cbv beta in T2.
  replace (lo <=? hi)%uint63 with true in T2
    by (symmetry; apply Uint63.leb_spec; exact Hlh).
  exact T2.
Qed.

Lemma hue_survives_elim (p : printer) (h0 : number) :
  hue_survives p h0 = true ->
  exists h1, decoded_hue p h0 = Some h1 /\ hue_close h1 h0 = true.
Proof.
  unfold hue_survives. destruct (decoded_hue p h0) as [h1|]; [|discriminate].
  intros H. exists h1. auto.
Qed.

Lemma all_colors (R G B : int) :
  (to_Z R < 256)%Z -> (to_Z G < 256)%Z -> (to_Z B < 256)%Z ->
  color_facts (hsl_of_rgb (of_uint63 R) (of_uint63 G) (of_uint63 B)).
Proof.
  intros HR HG HB.
  destruct (sort3 R G B) as (hi & mid & lo & Hs & Ho).
  destruct (order_bytes _ _ _ _ _ _ Ho HR HG HB) as (Hhi & Hmid & Hlo).
  destruct (pair_ok_elim lo hi (pair_ok_bytes lo hi ltac:(lia) Hhi)) as [ps pl pns pnl Hsl Hp].
  destruct Hp as (p & p2 & Hp & Hp2 & Es & El & Hhue).
  specialize (Hhue R G B mid (in_between lo hi mid Hs Hhi) Ho).
  rewrite hsl_of_rgb_core. cbv zeta. fold (chan R) (chan G) (chan B).
  destruct (order_minmax _ _ _ _ _ _ Ho Hs Hhi) as [-> ->].
  fold ps pl.
  set (h0 := hue_core (chan R) (chan G) (chan B) (chan lo) (chan hi)) in *.
  unfold hue_ok in Hhue.
  apply andb_prop in Hhue as [Hhue H2]. apply andb_prop in Hhue as [Hdeg H1].
  unfold sl_ok in Hsl.
  apply andb_prop in Hsl as [Hsl Hnl2]. apply andb_prop in Hsl as [Hsl Hnl1].
  apply andb_prop in Hsl as [Hsl Hns2]. apply andb_prop in Hsl as [Hsl Hns1].
  apply andb_prop in Hsl as [Hps Hpl].
  apply hue_survives_elim in H1 as (h1 & D1 & C1).
  apply hue_survives_elim in H2 as (h2 & D2 & C2).
  constructor; cbn [h s l].
  - exact Hdeg.
  - exact Hps.
  - exact Hpl.
  - split; [exact Hns1 | exact Hns2].
  - split; [exact Hnl1 | exact Hnl2].
  - exists h1. split; [|exact C1].
    rewrite (decoded_hue_sound ps pl p h0 h1 Hp D1), Es, El. reflexivity.
  - eexists. split; [reflexivity|].
    unfold newHue. cbn [h].
    change (newSaturation {| h := h0; s := ps; l := pl |}) with pns.
    change (newLightness {| h := h0; s := ps; l := pl |}) with pnl.
    rewrite (decoded_hue_sound pns pnl p2 _ h2 Hp2 D2). cbn [h]. exact C2.
Qed.

Lemma valid_hex_color_elim (hex : string) :
  valid_hex_color hex = true -> exists R G B, rgb_of_hex hex = Some (R, G, B).
Proof.
  unfold valid_hex_color. destruct (rgb_of_hex hex) as [[[R G] B]|]; [|discriminate].
  intros _. exists R, G, B. reflexivity.
Qed.

Lemma valid_color_facts (hex : string) :
  valid_hex_color hex = true -> color_facts (hexToHSL_string hex).
Proof.
  intros H. apply valid_hex_color_elim in H as (R & G & B & H).
  apply hexToHSL_string_valid in H as (-> & HR & HG & HB).
  apply all_colors; assumption.
Qed.

Lemma calculateComplementaryColor_string (c0 : ascii) (rest : string) :
  calculateComplementaryColor (JsString (String c0 rest))
  = Return (hslToHex (newHue (hexToHSL_string (String c0 rest)))
              (newSaturation (hexToHSL_string (String c0 rest)))
              (newLightness (hexToHSL_string (String c0 rest)))).
Proof. reflexivity. Qed.

Lemma valid_hex_color_nonempty (hex : string) :
  valid_hex_color hex = true -> exists c0 rest, hex = String c0 rest.
Proof.
  destruct hex as [|c0 rest]; [discriminate|]. intros _. exists c0, rest. reflexivity.
Qed.

Lemma is_degree_elim (x : number) :
  is_degree x = true ->
  exists k : int, (to_Z k < 360)%Z /\ (x =? of_uint63 k) = true.
Proof.
  unfold is_degree. intros H. apply andb_prop in H as [H1 H2].
  exists (to_int x). split; [apply Uint63.ltb_spec in H1; exact H1 | exact H2].
Qed.

Lemma is_percentage_elim (x : number) :
  is_percentage x = true ->
  exists n : int, (to_Z n <= 1000)%Z /\ x = of_uint63 n / 10.
Proof.
  unfold is_percentage. intros H. apply andb_prop in H as [H1 H2].
  exists (to_int (x * 10)). split.
  - apply Uint63.leb_spec in H1. exact H1.
  - apply Leibniz.eqb_spec. exact H2.
Qed.

(** *** Malformed input: NaN flows through *)

Lemma is_nan_elim (x : number) : is_nan x = true -> x = nan.
Proof.
  unfold is_nan. rewrite eqb_spec. intros H.
  rewrite <- (SF2Prim_Prim2SF x).
  destruct (Prim2SF x) as [sg|sg| |sg m e]; try reflexivity; exfalso.
  - destruct sg; discriminate.
  - destruct sg; discriminate.
  - unfold SFeqb, SFcompare in H.
    rewrite Z.compare_refl, Pos.compare_cont_refl in H.
    destruct sg; discriminate.
Qed.

Lemma eqb_nan_l (x : number) : (nan =? x) = false.
Proof. rewrite eqb_spec. reflexivity. Qed.

Lemma div_nan_r (x : number) : x / nan = nan.
Proof.
  rewrite <- (SF2Prim_Prim2SF (x / nan)), div_spec.
  change (Prim2SF nan) with S754_nan.
  destruct (Prim2SF x) as [sg|sg| |sg m e]; reflexivity.
Qed.

Lemma hsl_of_rgb_nan (R G B : number) :
  is_nan R || is_nan G || is_nan B = true -> hsl_of_rgb R G B = nan_hsl.
Proof.
  intros H.
  assert (Hmin : Math_min (R / 255) (G / 255) (B / 255) = nan
                 /\ Math_max (R / 255) (G / 255) (B / 255) = nan).
  { unfold Math_min, Math_max, Math_min2, Math_max2.
    apply orb_prop in H as [H | H]; [apply orb_prop in H as [H | H]|];
      apply is_nan_elim in H; subst;
      change (nan / 255) with nan; change (is_nan nan) with true;
      rewrite ?orb_true_r; cbn [orb]; split; reflexivity. }
  destruct Hmin as [Emin Emax].
  unfold hsl_of_rgb. rewrite Emin, Emax.
  change (nan - nan) with nan. change (nan =? 0) with false. cbv iota.
  rewrite !eqb_nan_l, div_nan_r. reflexivity.
Qed.

Lemma hexToHSL_string_unparsed (hex : string) :
  unparsed hex = true -> hexToHSL_string hex = nan_hsl.
Proof.
  unfold unparsed, channels. intros H.
  exact (hsl_of_rgb_nan _ _ _ H).
Qed.

Lemma conversions_return (str : string) :
  exists c out,
    hexToHSL (JsString str) = Return c
    /\ calculateComplementaryColor (JsString str) = Return out
    /\ implb (unparsed str) (is_nan_hsl c) = true
    /\ implb (unparsed str && negb (str =? "")%string) (out =? "#NaNNaNNaN")%string = true.
Proof.
  exists (hexToHSL_string str).
  destruct str as [|c0 rest].
  - exists "#6495ED"%string. repeat split.
  - eexists. split; [reflexivity|]. split; [apply calculateComplementaryColor_string|].
    destruct (unparsed (String c0 rest)) eqn:E; [|split; reflexivity].
    rewrite (hexToHSL_string_unparsed _ E). split; reflexivity.
Qed.

(** *** Malformed input: when the result is NaN *)

Lemma short_parse_table :
  parsed_ok EmptyString = true /\ forallb short_parse_ok all_ascii = true.
Proof. vm_compute. split; reflexivity. Qed.

Lemma signed_pairs_table : forallb signed_pairs_ok bytes = true.
Proof. vm_compute. reflexivity. Qed.

Lemma tenths_table : forallb tenth_ok (map (fun n => Uint63.of_Z (Z.of_nat n)) (seq 0 1001)) = true.
Proof. vm_compute. reflexivity. Qed.

Lemma small_integer_elim (x : number) :
  small_integer x = true -> exists sg k, (to_Z k < 256)%Z /\ x = signed sg k.
Proof.
  unfold small_integer. cbv zeta. intros H. apply andb_prop in H as [Hk H].
  apply Uint63.ltb_spec in Hk.
  apply orb_prop in H as [H | H]; apply Leibniz.eqb_spec in H; eauto.
Qed.

(** [parseInt] of at most two characters. *)
Lemma parse_short (str : string) :
  (String.length str <= 2)%nat ->
  is_nan (parseInt16 str) = true
  \/ exists sg k, (to_Z k < 256)%Z /\ parseInt16 str = signed sg k.
Proof.
  intros Hlen. destruct short_parse_table as [T0 T].
  assert (P : parsed_ok str = true).
  { destruct str as [|c1 [|c2 [|c3 rest]]].
    - exact T0.
    - pose proof (proj1 (forallb_forall _ _) T c1 (in_all_ascii c1)) as T1.
      unfold short_parse_ok in T1. apply andb_prop in T1 as [T1 _]. exact T1.
    - pose proof (proj1 (forallb_forall _ _) T c1 (in_all_ascii c1)) as T1.
      unfold short_parse_ok in T1. apply andb_prop in T1 as [_ T1].
      exact (proj1 (forallb_forall _ _) T1 c2 (in_all_ascii c2)).
    - cbn [String.length] in Hlen. lia. }
  unfold parsed_ok in P. cbv zeta in P.
  apply orb_prop in P as [P | P]; [left; exact P | right; apply small_integer_elim; exact P].
Qed.

Lemma substring_short (n : nat) (str : string) :
  (String.length (String.substring n 2 str) <= 2)%nat.
Proof.
  revert str. induction n as [|n IH]; intros str.
  - destruct str as [|c1 [|c2 rest]]; cbn; try lia.
    destruct rest; cbn; lia.
  - destruct str as [|c1 rest]; cbn [String.substring]; [cbn; lia | apply IH].
Qed.

Lemma signed_pair (sa sb : bool) (a b : int) :
  (to_Z a < 256)%Z -> (to_Z b < 256)%Z ->
  (Math_max2 (signed sa a / 255) (signed sb b / 255) = signed sa a / 255
   \/ Math_max2 (signed sa a / 255) (signed sb b / 255) = signed sb b / 255)
  /\ (Math_min2 (signed sa a / 255) (signed sb b / 255) = signed sa a / 255
      \/ Math_min2 (signed sa a / 255) (signed sb b / 255) = signed sb b / 255)
  /\ is_nan (light_core (signed sa a / 255) (signed sb b / 255)) = false.
Proof.
  intros Ha Hb.
  pose proof (proj1 (forallb_forall _ _) signed_pairs_table a (proj2 (in_bytes a) Ha)) as T.
  unfold signed_pairs_ok in T.
  pose proof (proj1 (forallb_forall _ _) T b (proj2 (in_bytes b) Hb)) as T2.
  cbv beta in T2.
  apply andb_prop in T2 as [T2 T4]. apply andb_prop in T2 as [T2 T3].
  apply andb_prop in T2 as [T1 T2].
  assert (P : signed_pair_ok sa a sb b = true) by (destruct sa, sb; assumption).
  unfold signed_pair_ok in P. cbv zeta in P.
  apply andb_prop in P as [P P3]. apply andb_prop in P as [P1 P2].
  apply negb_true_iff in P3.
  split; [|split; [|exact P3]].
  - apply orb_prop in P1 as [E | E]; apply Leibniz.eqb_spec in E; auto.
  - apply orb_prop in P2 as [E | E]; apply Leibniz.eqb_spec in E; auto.
Qed.

(** The lightness computed from three parsed channels is a number. *)
Lemma lightness_number (R G B : number) :
  (exists sg k, (to_Z k < 256)%Z /\ R = signed sg k) ->
  (exists sg k, (to_Z k < 256)%Z /\ G = signed sg k) ->
  (exists sg k, (to_Z k < 256)%Z /\ B = signed sg k) ->
  is_nan (l (hsl_of_rgb R G B)) = false.
Proof.
  intros (sr & r & Hr & ->) (sg & g & Hg & ->) (sb & b & Hb & ->).
  rewrite hsl_of_rgb_core. cbv zeta. cbn [l]. unfold Math_min, Math_max.
  destruct (signed_pair sr sg r g Hr Hg) as ([-> | ->] & [-> | ->] & _);
    repeat match goal with
           | |- context [Math_max2 (signed ?s1 ?k1 / 255) (signed ?s2 ?k2 / 255)] =>
               let H := fresh in
               destruct (signed_pair s1 s2 k1 k2 ltac:(assumption) ltac:(assumption))
                 as ([H | H] & _ & _); rewrite H; clear H
           | |- context [Math_min2 (signed ?s1 ?k1 / 255) (signed ?s2 ?k2 / 255)] =>
               let H := fresh in
               destruct (signed_pair s1 s2 k1 k2 ltac:(assumption) ltac:(assumption))
                 as (_ & [H | H] & _); rewrite H; clear H
           end;
    match goal with
    | |- is_nan (light_core (signed ?s1 ?k1 / 255) (signed ?s2 ?k2 / 255)) = false =>
        exact (proj2 (proj2 (signed_pair s1 s2 k1 k2 ltac:(assumption) ltac:(assumption))))
    end.
Qed.

Lemma is_nan_true_or_false (x : number) : is_nan x = true \/ is_nan x = false.
Proof. destruct (is_nan x); auto. Qed.

(** [hexToHSL] returns NaN for the lightness exactly when a channel does not
    parse, and then for the hue and the saturation as well. *)
Lemma nan_iff_unparsed (hex : string) :
  is_nan (l (hexToHSL_string hex)) = unparsed hex
  /\ is_nan_hsl (hexToHSL_string hex) = unparsed hex.
Proof.
  destruct (unparsed hex) eqn:U.
  - rewrite (hexToHSL_string_unparsed hex U). split; reflexivity.
  - assert (L : is_nan (l (hexToHSL_string hex)) = false).
    { unfold unparsed, channels in U. cbv zeta in U.
      apply orb_false_elim in U as [U U3]. apply orb_false_elim in U as [U1 U2].
      change (hexToHSL_string hex)
        with (hsl_of_rgb (parseInt16 (substring 0 2 (replace_leading_hash hex)))
                (parseInt16 (substring 2 4 (replace_leading_hash hex)))
                (parseInt16 (substring 4 6 (replace_leading_hash hex)))).
      apply lightness_number.
      - destruct (parse_short (substring 0 2 (replace_leading_hash hex))
                    (substring_short 0 _)) as [N | P]; [congruence | exact P].
      - destruct (parse_short (substring 2 4 (replace_leading_hash hex))
                    (substring_short 2 _)) as [N | P]; [congruence | exact P].
      - destruct (parse_short (substring 4 6 (replace_leading_hash hex))
                    (substring_short 4 _)) as [N | P]; [congruence | exact P]. }
    split; [exact L|]. unfold is_nan_hsl. rewrite L. apply andb_false_r.
Qed.

(** A well-formed colour parses. *)
Lemma valid_parsed (hex : string) : valid_hex_color hex = true -> unparsed hex = false.
Proof.
  intros Hv. destruct (nan_iff_unparsed hex) as [<- _].
  destruct (valid_color_facts hex Hv) as [_ _ Hl _ _ _ _].
  apply is_percentage_elim in Hl as (n & Hn & ->).
  assert (In n (map (fun n => Uint63.of_Z (Z.of_nat n)) (seq 0 1001))) as Hin.
  { apply in_map_iff. exists (Z.to_nat (to_Z n)).
    pose proof (Uint63.to_Z_bounded n) as Hb. split.
    - rewrite Z2Nat.id by lia. apply Uint63.of_to_Z.
    - apply in_seq. lia. }
  pose proof (proj1 (forallb_forall _ _) tenths_table n Hin) as T.
  apply negb_true_iff in T. exact T.
Qed.

(** *** Letter case and the leading hash *)

Lemma hex_digit_value_lower (c : ascii) :
  hex_digit_value (lower_ascii c) = hex_digit_value c.
Proof. destruct c as [[] [] [] [] [] [] [] []]; reflexivity. Qed.

Lemma six_digits_lower (str : string) :
  six_digits (toLowerCase str) = six_digits str.
Proof.
  destruct str as [|c1 [|c2 [|c3 [|c4 [|c5 [|c6 [|c7 rest]]]]]]]; try reflexivity.
  unfold toLowerCase. cbn [map_string six_digits]. unfold hex_pair.
  rewrite !hex_digit_value_lower. reflexivity.
Qed.

Lemma same_bytes_same_hsl (hex1 hex2 : string) (t : int * int * int) :
  rgb_of_hex hex1 = Some t -> rgb_of_hex hex2 = Some t ->
  hexToHSL_string hex1 = hexToHSL_string hex2.
Proof.
  destruct t as [[R G] B]. intros H1 H2.
  apply hexToHSL_string_valid in H1 as [-> _].
  apply hexToHSL_string_valid in H2 as [-> _]. reflexivity.
Qed.

(** ** The properties of the specification *)

(** C1, as stated, fails: a malformed hex string (["#zzz"], ["#1234"]) does
    not make [hexToHSL] or [calculateComplementaryColor] fail with an error;
    both return a value. *)
Lemma malformed_hex_counterexample :
  valid_hex_color "#zzz" = false
  /\ hexToHSL (JsString "#zzz") = Return nan_hsl
  /\ calculateComplementaryColor (JsString "#zzz") = Return "#NaNNaNNaN"%string
  /\ ~ throws (hexToHSL (JsString "#zzz"))
  /\ ~ throws (calculateComplementaryColor (JsString "#zzz"))
  /\ valid_hex_color "#1234" = false
  /\ hexToHSL (JsString "#1234") = Return nan_hsl
  /\ ~ throws (hexToHSL (JsString "#1234")).
Proof.
  repeat split; try reflexivity; intros [e H]; discriminate H.
Qed.

(** C1, amended: no string makes [hexToHSL] or
    [calculateComplementaryColor] raise an error; both return a value.
    [hexToHSL] returns NaN for the lightness exactly when [parseInt] returns
    NaN for one of the three channels, and then the hue and the saturation
    are NaN as well; this happens for malformed strings only, and the
    complementary colour of such a string, when it is not empty, is
    ["#NaNNaNNaN"].  Every other malformed string is read as the numbers
    [parseInt] finds in it. *)
Theorem malformed_hex_returns_value (hex : string) :
  exists c out,
    hexToHSL (JsString hex) = Return c
    /\ calculateComplementaryColor (JsString hex) = Return out
    /\ c = hsl_of_rgb (fst (fst (channels hex))) (snd (fst (channels hex)))
             (snd (channels hex))
    /\ is_nan (l c) = unparsed hex
    /\ is_nan_hsl c = unparsed hex
    /\ (unparsed hex = true -> valid_hex_color hex = false)
    /\ (unparsed hex = true -> hex <> EmptyString -> out = "#NaNNaNNaN"%string).
Proof.
  destruct (conversions_return hex) as (c & out & Hc & Hout & _ & Hnan).
  exists c, out.
  cbn [hexToHSL] in Hc. injection Hc as Hc. subst c.
  destruct (nan_iff_unparsed hex) as [L N].
  split; [reflexivity|]. split; [exact Hout|]. split; [reflexivity|].
  split; [exact L|]. split; [exact N|]. split.
  - intros U. destruct (valid_hex_color hex) eqn:V; [|reflexivity].
    rewrite (valid_parsed hex V) in U. discriminate U.
  - intros U Hne. rewrite U in Hnan. cbn [andb] in Hnan.
    destruct hex as [|c0 rest]; [contradiction|].
    cbn [String.eqb negb implb] in Hnan.
    apply String.eqb_eq. exact Hnan.
Qed.

(** A malformed string that parses: a sign is read, and the red channel of
    ["-f0000"] is -15. *)
Example hexToHSL_signed_channel :
  valid_hex_color "-f0000" = false
  /\ unparsed "-f0000" = false
  /\ channels "-f0000" = (-15, 0, 0)
  /\ hexToHSL (JsString "-f0000") = Return {| h := 180; s := -100; l := -2.9 |}.
Proof. vm_compute. repeat split; reflexivity. Qed.

(** C2, as stated, fails: the colour ["#b48c8d"] has hue 359, and the hue
    read back from its round trip is 0, which is not within one unit of
    359. *)
Lemma round_trip_counterexample :
  valid_hex_color "#b48c8d" = true
  /\ hexToHSL (JsString "#b48c8d") = Return {| h := 359; s := 21.1; l := 62.7 |}
  /\ hslToHex 359 21.1 62.7 = "#b48c8c"%string
  /\ hexToHSL (JsString "#b48c8c") = Return {| h := 0; s := 21.1; l := 62.7 |}
  /\ within_one 0 359 = false
  /\ ~ round_trip_within_one "#b48c8d".
Proof.
  repeat split; try reflexivity.
  intros (c & c' & H1 & H2 & Hh & _).
  vm_compute in H1. injection H1 as <-.
  vm_compute in H2. injection H2 as <-.
  vm_compute in Hh. discriminate Hh.
Qed.

(** C2, amended: for every valid hex colour the round trip
    [hexToHSL (hslToHex (hexToHSL c))] reproduces the saturation and the
    lightness of [hexToHSL c] exactly, and a hue that is its neighbour on
    the colour wheel: at most one degree away, 359 and 0 being
    neighbours. *)
Theorem round_trip_stable_on_wheel (hex : string) :
  valid_hex_color hex = true ->
  exists c c',
    hexToHSL (JsString hex) = Return c
    /\ hexToHSL (JsString (hslToHex (h c) (s c) (l c))) = Return c'
    /\ hue_close (h c') (h c) = true
    /\ s c' = s c
    /\ l c' = l c.
Proof.
  intros H. destruct (valid_color_facts hex H) as [_ _ _ _ _ (h1 & E & C) _].
  exists (hexToHSL_string hex). eexists. split; [reflexivity|].
  split; [cbn [hexToHSL]; rewrite E; reflexivity|].
  cbn [h s l]. auto.
Qed.

Lemma round_trip_stable_on_wheel_witness :
  exists c c',
    hexToHSL (JsString "#b48c8d") = Return c
    /\ hexToHSL (JsString (hslToHex (h c) (s c) (l c))) = Return c'
    /\ hue_close (h c') (h c) = true
    /\ s c' = s c
    /\ l c' = l c.
Proof.
  apply (round_trip_stable_on_wheel "#b48c8d"). reflexivity.
Defined.

(** C4, as stated, fails: the colour ["#000bf7"] has hue 237, its
    complementary colour is printed from the hue 57, and the hue read back
    from it is 58. *)
Lemma complementary_hue_counterexample :
  valid_hex_color "#000bf7" = true
  /\ h (hexToHSL_string "#000bf7") = 237
  /\ rem (237 + 180) 360 = 57
  /\ calculateComplementaryColor (JsString "#000bf7") = Return "#f9f596"%string
  /\ h (hexToHSL_string "#f9f596") = 58
  /\ ~ complementary_hue_exact "#000bf7".
Proof.
  repeat split; try reflexivity.
  intros (c & out & c' & H1 & H2 & H3 & Hh).
  vm_compute in H1. injection H1 as <-.
  vm_compute in H2. injection H2 as <-.
  vm_compute in H3. injection H3 as <-.
  vm_compute in Hh. discriminate Hh.
Qed.

(** C4, amended: for every valid hex colour with hue [h], the complementary
    colour is printed from the hue [(h + 180) mod 360], and the hue that
    [hexToHSL] reads back from it is that hue or a neighbour of it on the
    colour wheel (at most one degree away). *)
Theorem complementary_hue_within_one (hex : string) :
  valid_hex_color hex = true ->
  exists c out c',
    hexToHSL (JsString hex) = Return c
    /\ calculateComplementaryColor (JsString hex) = Return out
    /\ out = hslToHex (newHue c) (newSaturation c) (newLightness c)
    /\ newHue c = rem (h c + 180) 360
    /\ hexToHSL (JsString out) = Return c'
    /\ hue_close (h c') (newHue c) = true.
Proof.
  intros H. destruct (valid_color_facts hex H) as [_ _ _ _ _ _ (c2 & E & C)].
  destruct (valid_hex_color_nonempty hex H) as (c0 & rest & ->).
  exists (hexToHSL_string (String c0 rest)). eexists. exists c2.
  split; [reflexivity|].
  split; [apply calculateComplementaryColor_string|].
  split; [reflexivity|].
  split; [reflexivity|].
  split; [cbn [hexToHSL]; rewrite E; reflexivity|].
  exact C.
Qed.

Lemma complementary_hue_within_one_witness :
  exists c out c',
    hexToHSL (JsString "#000bf7") = Return c
    /\ calculateComplementaryColor (JsString "#000bf7") = Return out
    /\ out = hslToHex (newHue c) (newSaturation c) (newLightness c)
    /\ newHue c = rem (h c + 180) 360
    /\ hexToHSL (JsString out) = Return c'
    /\ hue_close (h c') (newHue c) = true.
Proof.
  apply (complementary_hue_within_one "#000bf7"). reflexivity.
Defined.

(** C5: for every valid hex colour, the saturation that
    [calculateComplementaryColor] hands to [hslToHex] (the original one
    clamped to 60 and 90) lies in [60, 90], and the lightness it hands over
    ([l < 50 ? min(l + 30, 80) : max(l - 30, 30)]) lies in [30, 80]. *)
Theorem adjusted_saturation_lightness (hex : string) :
  valid_hex_color hex = true ->
  exists c,
    hexToHSL (JsString hex) = Return c
    /\ calculateComplementaryColor (JsString hex)
       = Return (hslToHex (newHue c) (newSaturation c) (newLightness c))
    /\ (60 <=? newSaturation c) = true /\ (newSaturation c <=? 90) = true
    /\ (30 <=? newLightness c) = true /\ (newLightness c <=? 80) = true.
Proof.
  intros H. destruct (valid_color_facts hex H) as [_ _ _ [S1 S2] [L1 L2] _ _].
  destruct (valid_hex_color_nonempty hex H) as (c0 & rest & ->).
  exists (hexToHSL_string (String c0 rest)).
  split; [reflexivity|].
  split; [apply calculateComplementaryColor_string|]. auto.
Qed.

Lemma adjusted_saturation_lightness_witness :
  exists c,
    hexToHSL (JsString "#282c34") = Return c
    /\ calculateComplementaryColor (JsString "#282c34")
       = Return (hslToHex (newHue c) (newSaturation c) (newLightness c))
    /\ (60 <=? newSaturation c) = true /\ (newSaturation c <=? 90) = true
    /\ (30 <=? newLightness c) = true /\ (newLightness c <=? 80) = true.
Proof.
  apply (adjusted_saturation_lightness "#282c34"). reflexivity.
Defined.

(** C6: for every achromatic colour (the same byte in the three channels,
    for example ["#808080"]) [hexToHSL] returns the hue 0 and the saturation
    0, the numbers themselves and not NaN. *)
Theorem achromatic_hue_saturation_zero (hex : string) (v : int) :
  rgb_of_hex hex = Some (v, v, v) ->
  exists c, hexToHSL (JsString hex) = Return c /\ h c = 0 /\ s c = 0.
Proof.
  intros H. apply hexToHSL_string_valid in H as (E & Hv & _).
  exists (hexToHSL_string hex). split; [reflexivity|]. rewrite E.
  pose proof (proj1 (forallb_forall _ _) gray_table v (proj2 (in_bytes v) Hv)) as T.
  unfold gray_ok in T. apply andb_prop in T as [T1 T2].
  split; apply Leibniz.eqb_spec; assumption.
Qed.

Lemma achromatic_hue_saturation_zero_witness :
  exists c, hexToHSL (JsString "#808080") = Return c /\ h c = 0 /\ s c = 0.
Proof.
  apply (achromatic_hue_saturation_zero "#808080" 128). reflexivity.
Defined.

(** C7: ["#ff0000"] is (h = 0, s = 100, l = 50); as 50 is not below 50 the
    adjusted lightness is max(50 - 30, 30) = 30; the complementary colour is
    ["#089191"], which [hexToHSL] reads as hue 180, saturation 89.5 (in
    [60, 90]) and lightness 30. *)
Theorem complementary_of_red :
  hexToHSL (JsString "#ff0000") = Return {| h := 0; s := 100; l := 50 |}
  /\ (50 <? 50) = false
  /\ newLightness {| h := 0; s := 100; l := 50 |} = Math_max2 (50 - 30) 30
  /\ Math_max2 (50 - 30) 30 = 30
  /\ calculateComplementaryColor (JsString "#ff0000") = Return "#089191"%string
  /\ hexToHSL (JsString "#089191") = Return {| h := 180; s := 89.5; l := 30 |}
  /\ (60 <=? 89.5) = true /\ (89.5 <=? 90) = true.
Proof. repeat split. Qed.

(** C8: for every valid hex colour, [hexToHSL] returns the same value for
    every string that differs from it only in the letter case of the hex
    digits and in whether the leading ["#"] is there; so
    [hexToHSL "#ABCDEF" = hexToHSL "#abcdef" = hexToHSL "abcdef"]. *)
Theorem hexToHSL_case_and_hash_insensitive (hex1 hex2 : string) :
  valid_hex_color hex1 = true ->
  toLowerCase (replace_leading_hash hex1) = toLowerCase (replace_leading_hash hex2) ->
  hexToHSL (JsString hex1) = hexToHSL (JsString hex2).
Proof.
  intros H E. apply valid_hex_color_elim in H as (R & G & B & H).
  cbn [hexToHSL]. f_equal.
  apply (same_bytes_same_hsl _ _ (R, G, B)); [exact H|].
  rewrite rgb_of_hex_strip in *.
  rewrite <- six_digits_lower, <- E, six_digits_lower. exact H.
Qed.

Lemma hexToHSL_case_and_hash_insensitive_witness :
  hexToHSL (JsString "#ABCDEF") = hexToHSL (JsString "#abcdef")
  /\ hexToHSL (JsString "#abcdef") = hexToHSL (JsString "abcdef").
Proof.
  split.
  - apply (hexToHSL_case_and_hash_insensitive "#ABCDEF" "#abcdef"); reflexivity.
  - apply (hexToHSL_case_and_hash_insensitive "#abcdef" "abcdef"); reflexivity.
Defined.

(** C9: for every valid hex colour, the hue [hexToHSL] returns is a whole
    number of degrees in [0, 360) (it equals, as [===] has it, an integer
    [k] with [0 <= k < 360]; the hue can be [-0]), and the saturation and
    the lightness are percentages in [0, 100] with one decimal: the number
    nearest to [n / 10] for an integer [n] from 0 to 1000. *)
Theorem hexToHSL_range (hex : string) :
  valid_hex_color hex = true ->
  exists c,
    hexToHSL (JsString hex) = Return c
    /\ (exists k : int, (to_Z k < 360)%Z /\ (h c =? of_uint63 k) = true)
    /\ (exists n : int, (to_Z n <= 1000)%Z /\ s c = of_uint63 n / 10)
    /\ (exists n : int, (to_Z n <= 1000)%Z /\ l c = of_uint63 n / 10).
Proof.
  intros H. destruct (valid_color_facts hex H) as [Hd Hs Hl _ _ _ _].
  exists (hexToHSL_string hex). split; [reflexivity|].
  split; [apply is_degree_elim; exact Hd|].
  split; apply is_percentage_elim; assumption.
Qed.

Lemma hexToHSL_range_witness :
  exists c,
    hexToHSL (JsString "#282c34") = Return c
    /\ (exists k : int, (to_Z k < 360)%Z /\ (h c =? of_uint63 k) = true)
    /\ (exists n : int, (to_Z n <= 1000)%Z /\ s c = of_uint63 n / 10)
    /\ (exists n : int, (to_Z n <= 1000)%Z /\ l c = of_uint63 n / 10).
Proof.
  apply (hexToHSL_range "#282c34"). reflexivity.
Defined.

(** C10: for every string, [hexToHSL] and [calculateComplementaryColor]
    return a value and throw nothing; when a channel does not parse, the
    three fields of the value [hexToHSL] returns are NaN. *)
Theorem conversions_total (str : string) :
  exists c out,
    hexToHSL (JsString str) = Return c
    /\ calculateComplementaryColor (JsString str) = Return out
    /\ implb (unparsed str) (is_nan_hsl c) = true.
Proof.
  destruct (conversions_return str) as (c & out & H1 & H2 & H3 & _).
  exists c, out. auto.
Qed.

(** C3, as stated, fails: with no dominant colour supplied the provider
    holds the dominant colour ["#282c34"], but its complementary colour is
    ["#ED7D31"] at first and ["#c49331"] once the effect has run, never
    ["#6495ED"]. *)
Lemma default_theme_counterexample :
  theme initialState = (JsString "#282c34", "#ED7D31"%string)
  /\ theme initialState <> (JsString "#282c34", "#6495ED"%string)
  /\ exists st,
       complementaryEffect initialState = Return st
       /\ theme st = (JsString "#282c34", "#c49331"%string)
       /\ theme st <> (JsString "#282c34", "#6495ED"%string).
Proof.
  split; [reflexivity|]. split; [intros E; vm_compute in E; discriminate E|].
  exists {| logoUrl := ""; dominantColor := JsString "#282c34";
            complementaryColor := "#c49331" |}.
  split; [vm_compute; reflexivity|]. split; [reflexivity|].
  intros E; vm_compute in E; discriminate E.
Qed.

(** ** Further properties of the code *)

(** *** More tables *)

Section Ranges.

Local Open Scope Z_scope.

Lemma in_ints (n : nat) (k : int) :
  to_Z k < Z.of_nat n ->
  In k (map (fun n => Uint63.of_Z (Z.of_nat n)) (seq 0 n)).
Proof.
  intros Hk. apply in_map_iff. exists (Z.to_nat (to_Z k)).
  pose proof (Uint63.to_Z_bounded k) as Hb. split.
  - rewrite Z2Nat.id by lia. apply Uint63.of_to_Z.
  - apply in_seq. lia.
Qed.

Lemma in_thousand_tenths (n : int) : to_Z n <= 1000 -> In n thousand_tenths.
Proof. intros H. apply in_ints. lia. Qed.

Lemma in_degrees (k : int) : to_Z k < 360 -> In k degrees.
Proof. intros H. apply in_ints. lia. Qed.

End Ranges.

Lemma print_pair_table : forallb print_pair_ok bytes = true.
Proof. vm_compute. reflexivity. Qed.

Lemma extremes_table :
  forallb (fun hi =>
    forallb (fun lo => if (lo <=? hi)%uint63 then extremes_ok lo hi else true) bytes)
    bytes = true.
Proof. vm_compute. reflexivity. Qed.

Lemma achromatic_table : forallb achromatic_ok thousand_tenths = true.
Proof. vm_compute. reflexivity. Qed.

Lemma mid_zero_table : forallb mid_zero_ok degrees = true.
Proof. vm_compute. reflexivity. Qed.

Lemma lone_digit_table :
  forallb (fun c1 => forallb (fun c2 => lone_digit_ok c1 c2) all_ascii) all_ascii = true.
Proof. vm_compute. reflexivity. Qed.

(** *** Strings that are not six hex digits *)

Lemma replace_leading_hash_append (c0 : ascii) (rest tail : string) :
  replace_leading_hash (String c0 rest ++ tail)
  = (replace_leading_hash (String c0 rest) ++ tail)%string.
Proof. destruct c0 as [[] [] [] [] [] [] [] []]; reflexivity. Qed.

Lemma hexToHSL_string_tail (hex tail : string) :
  valid_hex_color hex = true ->
  hexToHSL_string (hex ++ tail) = hexToHSL_string hex.
Proof.
  intros Hv. destruct (valid_hex_color_elim hex Hv) as (R & G & B & H).
  rewrite rgb_of_hex_strip in H.
  apply six_digits_elim in H as (c1 & c2 & c3 & c4 & c5 & c6 & E & _).
  destruct (valid_hex_color_nonempty hex Hv) as (c0 & rest & ->).
  rewrite (hexToHSL_string_six _ _ _ _ _ _ _ E).
  unfold hexToHSL_string. rewrite replace_leading_hash_append, E.
  destruct tail; reflexivity.
Qed.

Lemma short_unparsed (hex : string) :
  (String.length (replace_leading_hash hex) <= 4)%nat -> unparsed hex = true.
Proof.
  intros H. unfold unparsed, channels.
  destruct (replace_leading_hash hex) as [|a [|b [|c [|d [|e rest]]]]];
    try (cbn in H; lia);
    cbn [substring Nat.min Nat.max Nat.sub String.substring];
    change (is_nan (parseInt16 EmptyString)) with true;
    apply orb_true_r.
Qed.

Lemma substring_first_two (c1 c2 : ascii) (rest : string) :
  substring 0 2 (String c1 (String c2 rest)) = String c1 (String c2 EmptyString).
Proof. destruct rest; reflexivity. Qed.

Lemma lone_digit (c1 c2 : ascii) :
  hex_digit_value c1 <> None -> hex_digit_value c2 = None ->
  (c1 = "0"%char -> c2 <> "x"%char /\ c2 <> "X"%char) ->
  parseInt16 (String c1 (String c2 EmptyString))
  = parseInt16 (String "0" (String c1 EmptyString))
  /\ replace_leading_hash (String c1 EmptyString) = String c1 EmptyString.
Proof.
  intros H1 H2 Hx.
  pose proof (proj1 (forallb_forall _ _) lone_digit_table c1 (in_all_ascii c1)) as T.
  cbv beta in T.
  pose proof (proj1 (forallb_forall _ _) T c2 (in_all_ascii c2)) as T2.
  unfold lone_digit_ok in T2. rewrite H2 in T2.
  destruct (hex_digit_value c1) as [d|] eqn:E1; [|contradiction].
  split.
  - apply orb_prop in T2 as [T2 | T2].
    + exfalso. apply andb_prop in T2 as [A B].
      apply Ascii.eqb_eq in A. destruct (Hx A) as [N1 N2].
      apply orb_prop in B as [B | B]; apply Ascii.eqb_eq in B; contradiction.
    + apply Leibniz.eqb_spec. exact T2.
  - clear T T2 Hx. revert E1.
    destruct c1 as [[] [] [] [] [] [] [] []]; intros E1; try reflexivity; discriminate.
Qed.

(** X1: whatever follows the six digits of a well-formed colour is ignored:
    [hexToHSL] and [calculateComplementaryColor] return for the longer
    string what they return for the colour (so ["#rrggbbaa"] is read as
    ["#rrggbb"]). *)
Theorem hexToHSL_ignores_tail (hex tail : string) :
  valid_hex_color hex = true ->
  hexToHSL (JsString (hex ++ tail)) = hexToHSL (JsString hex)
  /\ calculateComplementaryColor (JsString (hex ++ tail))
     = calculateComplementaryColor (JsString hex).
Proof.
  intros Hv. pose proof (hexToHSL_string_tail hex tail Hv) as E.
  destruct (valid_hex_color_nonempty hex Hv) as (c0 & rest & ->).
  split.
  - cbn [hexToHSL]. rewrite E. reflexivity.
  - change (String c0 rest ++ tail)%string with (String c0 (rest ++ tail)) in *.
    rewrite !calculateComplementaryColor_string, E. reflexivity.
Qed.

Lemma hexToHSL_ignores_tail_witness :
  valid_hex_color "#ff0000" = true
  /\ hexToHSL (JsString ("#ff0000" ++ "80")) = hexToHSL (JsString "#ff0000")
  /\ calculateComplementaryColor (JsString ("#ff0000" ++ "80"))
     = calculateComplementaryColor (JsString "#ff0000").
Proof.
  split; [reflexivity|].
  apply (hexToHSL_ignores_tail "#ff0000" "80"). reflexivity.
Defined.

(** X2: when fewer than five characters are left after the leading ["#"]
    has been removed (the empty string, ["#"], the short form ["#abc"],
    ["#1234"]), the blue channel is read from the empty string and
    [hexToHSL] returns NaN for [h], [s] and [l]. *)
Theorem hexToHSL_short_input (hex : string) :
  (String.length (replace_leading_hash hex) <= 4)%nat ->
  hexToHSL (JsString hex) = Return nan_hsl.
Proof.
  intros H. cbn [hexToHSL]. f_equal.
  apply hexToHSL_string_unparsed, short_unparsed, H.
Qed.

Lemma hexToHSL_short_input_witness :
  (String.length (replace_leading_hash "#abc") <= 4)%nat
  /\ hexToHSL (JsString "#abc") = Return nan_hsl.
Proof.
  split; [cbn; lia|].
  apply (hexToHSL_short_input "#abc"). cbn. lia.
Defined.

(** X3: a channel made of a hex digit and a character that is no hex digit
    is read as the digit alone (["#1z3456"] is read as ["#013456"]), and no
    error is raised.  The one exception is the channel ["0x"] or ["0X"],
    which [parseInt] takes for a prefix. *)
Theorem hexToHSL_reads_lone_digit (c1 c2 : ascii) (rest : string) :
  hex_digit_value c1 <> None -> hex_digit_value c2 = None ->
  (c1 = "0"%char -> c2 <> "x"%char /\ c2 <> "X"%char) ->
  hexToHSL (JsString (String c1 (String c2 rest)))
  = hexToHSL (JsString (String "0" (String c1 rest)))
  /\ hexToHSL (JsString (String "#" (String c1 (String c2 rest))))
     = hexToHSL (JsString (String "#" (String "0" (String c1 rest)))).
Proof.
  intros H1 H2 Hx. destruct (lone_digit c1 c2 H1 H2 Hx) as [E Hh].
  assert (Hh' : forall r, replace_leading_hash (String c1 r) = String c1 r).
  { intros r. revert Hh. destruct c1 as [[] [] [] [] [] [] [] []]; try reflexivity.
    discriminate. }
  assert (Core : hexToHSL_string (String "#" (String c1 (String c2 rest)))
                 = hexToHSL_string (String "#" (String "0" (String c1 rest)))).
  { unfold hexToHSL_string. cbn [replace_leading_hash].
    rewrite !substring_first_two, E. reflexivity. }
  split; cbn [hexToHSL]; f_equal; [|exact Core].
  unfold hexToHSL_string in *. rewrite Hh'.
  cbn [replace_leading_hash] in *. exact Core.
Qed.

Lemma hexToHSL_reads_lone_digit_witness :
  hexToHSL (JsString "1z3456") = hexToHSL (JsString "013456")
  /\ hexToHSL (JsString "#1z3456") = hexToHSL (JsString "#013456").
Proof.
  apply (hexToHSL_reads_lone_digit "1" "z" "3456").
  - discriminate.
  - reflexivity.
  - intros E. discriminate E.
Defined.

(** X4: the guard of [calculateComplementaryColor] keeps the falsy values
    ([undefined], [null], [false], the zeros, NaN, the empty string) away
    from [hexToHSL] and answers them with ["#6495ED"]; every other value goes
    to [hex.replace].  Of the values that can reach the function (a string,
    or what a JSON response holds as [dominantColor]) it therefore throws
    for exactly those that are truthy and no string: [true], the numbers
    other than zero and NaN, the arrays and the objects. *)
Theorem complementary_throws_iff (v : JsValue) :
  (throws (calculateComplementaryColor v) <->
   v = JsBoolean true
   \/ (exists x, v = JsNumber x /\ is_zero x = false /\ is_nan x = false)
   \/ exists ref, v = JsObject ref)
  /\ (js_not v = true -> calculateComplementaryColor v = Return "#6495ED"%string).
Proof.
  unfold throws, calculateComplementaryColor. split; [split|].
  - intros [e E]. destruct v as [| |[]|x|[|c0 rest]|ref]; try discriminate E.
    + left. reflexivity.
    + right. left. exists x. split; [reflexivity|]. cbn [js_not] in E.
      destruct (is_zero x); [discriminate E|]. destruct (is_nan x); [discriminate E|].
      split; reflexivity.
    + right. right. exists ref. reflexivity.
  - intros [-> | [(x & -> & Hz & Hn) | (ref & ->)]]; exists TypeError.
    + reflexivity.
    + cbn [js_not]. rewrite Hz, Hn. reflexivity.
    + reflexivity.
  - intros H. rewrite H. reflexivity.
Qed.

(** *** The colour a conversion prints *)

Lemma length_append (a b : string) :
  String.length (a ++ b) = (String.length a + String.length b)%nat.
Proof. induction a as [|c a IH]; cbn; [reflexivity | rewrite IH; reflexivity]. Qed.

Lemma channel_hex_pair (v : number) (k : int) :
  channel_byte v = Some k ->
  exists c1 c2,
    channel_hex v = String c1 (String c2 EmptyString)
    /\ hex_pair c1 c2 = Some k /\ lower_ascii c1 = c1 /\ lower_ascii c2 = c2.
Proof.
  intros H. apply channel_byte_elim in H as [Hk ->].
  pose proof (proj1 (forallb_forall _ _) print_pair_table k (proj2 (in_bytes k) Hk)) as T.
  unfold print_pair_ok in T.
  destruct (channel_hex (of_uint63 k)) as [|c1 [|c2 [|c3 rest]]]; try discriminate.
  apply andb_prop in T as [T L2]. apply andb_prop in T as [T L1].
  destruct (hex_pair c1 c2) as [k'|] eqn:P; [|discriminate].
  apply Uint63.eqb_spec in T. subst k'.
  apply Ascii.eqb_eq in L1. apply Ascii.eqb_eq in L2.
  exists c1, c2. repeat split; try assumption; reflexivity.
Qed.

Lemma hex_of_rgb_bytes (a b c : number) (ka kb kc : int) :
  channel_byte a = Some ka -> channel_byte b = Some kb -> channel_byte c = Some kc ->
  rgb_of_hex (hex_of_rgb (a, b, c)) = Some (ka, kb, kc)
  /\ String.length (hex_of_rgb (a, b, c)) = 7%nat
  /\ toLowerCase (hex_of_rgb (a, b, c)) = hex_of_rgb (a, b, c).
Proof.
  intros Ha Hb Hc.
  apply channel_hex_pair in Ha as (a1 & a2 & Ea & Pa & La1 & La2).
  apply channel_hex_pair in Hb as (b1 & b2 & Eb & Pb & Lb1 & Lb2).
  apply channel_hex_pair in Hc as (c1 & c2 & Ec & Pc & Lc1 & Lc2).
  unfold hex_of_rgb. rewrite Ea, Eb, Ec.
  cbn [append rgb_of_hex six_digits String.length toLowerCase map_string].
  rewrite Pa, Pb, Pc, La1, La2, Lb1, Lb2, Lc1, Lc2.
  repeat split; reflexivity.
Qed.

Lemma byte_extremes_le (a b : int) :
  (to_Z a <= to_Z b)%Z ->
  byte_max2 a b = b /\ byte_max2 b a = b /\ byte_min2 a b = a /\ byte_min2 b a = a.
Proof.
  intros H. unfold byte_max2, byte_min2.
  replace (a <=? b)%uint63 with true by (symmetry; apply Uint63.leb_spec; exact H).
  destruct (b <=? a)%uint63 eqn:E.
  - apply Uint63.leb_spec in E.
    assert (a = b) by (apply Uint63.to_Z_inj; lia). subst. auto.
  - auto.
Qed.

Lemma order_extremes (R G B hi mid lo : int) :
  is_order R G B hi mid lo -> (to_Z lo <= to_Z mid <= to_Z hi)%Z ->
  byte_max R G B = hi /\ byte_min R G B = lo.
Proof.
  intros Ho Hs.
  destruct (byte_extremes_le lo mid ltac:(lia)) as (A1 & A2 & A3 & A4).
  destruct (byte_extremes_le mid hi ltac:(lia)) as (B1 & B2 & B3 & B4).
  destruct (byte_extremes_le lo hi ltac:(lia)) as (C1 & C2 & C3 & C4).
  destruct (byte_extremes_le lo lo ltac:(lia)) as (D1 & _ & D3 & _).
  destruct (byte_extremes_le hi hi ltac:(lia)) as (E1 & _ & E3 & _).
  unfold byte_max, byte_min, is_order in *.
  destruct Ho as [E|[E|[E|[E|[E|E]]]]]; injection E as -> -> ->;
    repeat match goal with H : _ = _ :> int |- _ => rewrite H end;
    split; reflexivity.
Qed.

(** The colour [hslToHex] prints when the three levels are bytes. *)
Lemma printed_color (s l : number) (p : printer) (h0 h1 : number) :
  printer_of s l = Some p -> decoded_hue p h0 = Some h1 ->
  exists ka kb kc k,
    rgb_of_hex (hslToHex h0 s l) = Some (ka, kb, kc)
    /\ is_order ka kb kc (p_top p) k (p_bot p)
    /\ (to_Z (p_bot p) <= to_Z k <= to_Z (p_top p))%Z
    /\ String.length (hslToHex h0 s l) = 7%nat
    /\ toLowerCase (hslToHex h0 s l) = hslToHex h0 s l.
Proof.
  unfold printer_of. intros Hp Hd.
  destruct (channel_byte (print_level (chroma s l) (offset s l))) as [top|] eqn:Htop;
    [|discriminate].
  destruct (channel_byte (print_level 0 (offset s l))) as [bot|] eqn:Hbot;
    [|discriminate].
  injection Hp as <-. unfold decoded_hue in Hd. cbn [p_c p_m p_top p_bot p_ctop p_cbot] in *.
  destruct (channel_byte (print_level (mid_component h0 (chroma s l)) (offset s l)))
    as [k|] eqn:Hk; [|discriminate].
  destruct ((bot <=? k)%uint63 && (k <=? top)%uint63) eqn:Hr; [|discriminate].
  apply andb_prop in Hr as [Hr1 Hr2].
  apply Uint63.leb_spec in Hr1. apply Uint63.leb_spec in Hr2.
  rewrite hslToHex_unfold, hslToRGB_arrange.
  unfold arrange in *.
  split_sectors;
    match goal with
    | |- context [hex_of_rgb (?a, ?b, ?c)] =>
        match goal with
        | Ha : channel_byte a = Some ?ka, Hb : channel_byte b = Some ?kb,
          Hc : channel_byte c = Some ?kc |- _ =>
            destruct (hex_of_rgb_bytes a b c ka kb kc Ha Hb Hc) as (E1 & E2 & E3);
            exists ka, kb, kc, k;
            repeat split; try assumption; try lia; unfold is_order; auto 10
        end
    end.
Qed.

Lemma extremes_ok_bytes (lo hi : int) :
  (to_Z lo <= to_Z hi)%Z -> (to_Z hi < 256)%Z -> extremes_ok lo hi = true.
Proof.
  intros Hlh Hh.
  assert (Hhi : In hi bytes) by (apply in_bytes; lia).
  assert (Hlo : In lo bytes) by (apply in_bytes; lia).
  pose proof (proj1 (forallb_forall _ _) extremes_table hi Hhi) as T.
  cbv beta in T.
  pose proof (proj1 (forallb_forall _ _) T lo Hlo) as T2.
  cbv beta in T2.
  replace (lo <=? hi)%uint63 with true in T2
    by (symmetry; apply Uint63.leb_spec; exact Hlh).
  exact T2.
Qed.

(** Every colour, with what is printed for it and for its complementary
    colour. *)
Lemma color_printers (R G B : int) :
  (to_Z R < 256)%Z -> (to_Z G < 256)%Z -> (to_Z B < 256)%Z ->
  exists hi mid lo p p2 h1 h2 c,
    c = hsl_of_rgb (of_uint63 R) (of_uint63 G) (of_uint63 B)
    /\ (to_Z lo <= to_Z mid <= to_Z hi)%Z /\ (to_Z hi < 256)%Z
    /\ is_order R G B hi mid lo
    /\ printer_of (s c) (l c) = Some p
    /\ printer_of (newSaturation c) (newLightness c) = Some p2
    /\ decoded_hue p (h c) = Some h1
    /\ decoded_hue p2 (newHue c) = Some h2
    /\ extreme_facts c lo hi p p2.
Proof.
  intros HR HG HB.
  destruct (sort3 R G B) as (hi & mid & lo & Hs & Ho).
  destruct (order_bytes _ _ _ _ _ _ Ho HR HG HB) as (Hhi & Hmid & Hlo).
  destruct (pair_ok_elim lo hi (pair_ok_bytes lo hi ltac:(lia) Hhi)) as [ps pl pns pnl _ Hp].
  destruct Hp as (p & p2 & Hp & Hp2 & _ & _ & Hhue).
  specialize (Hhue R G B mid (in_between lo hi mid Hs Hhi) Ho).
  pose proof (extremes_ok_bytes lo hi ltac:(lia) Hhi) as X.
  unfold extremes_ok in X. cbv zeta in X.
  subst ps pl pns pnl. rewrite Hp, Hp2 in X.
  unfold hue_ok in Hhue.
  apply andb_prop in Hhue as [Hhue H2]. apply andb_prop in Hhue as [_ H1].
  apply hue_survives_elim in H1 as (h1 & D1 & _).
  apply hue_survives_elim in H2 as (h2 & D2 & _).
  exists hi, mid, lo, p, p2, h1, h2. eexists. split; [reflexivity|].
  rewrite hsl_of_rgb_core. cbv zeta. fold (chan R) (chan G) (chan B).
  destruct (order_minmax _ _ _ _ _ _ Ho Hs Hhi) as [-> ->].
  unfold newHue, newSaturation, newLightness in *. cbn [h s l] in *.
  apply andb_prop in X as [X X4]. apply andb_prop in X as [X X3].
  apply andb_prop in X as [X1 X2].
  apply andb_prop in X4 as [X4 X10]. apply andb_prop in X4 as [X4 X9].
  apply andb_prop in X4 as [X4 X8]. apply andb_prop in X4 as [X4 X7].
  apply andb_prop in X4 as [X5 X6].
  split; [exact Hs|]. split; [exact Hhi|]. split; [exact Ho|].
  split; [exact Hp|]. split; [exact Hp2|]. split; [exact D1|]. split; [exact D2|].
  constructor; cbn [h s l].
  - apply Bool.eqb_prop. exact X1.
  - apply Bool.eqb_prop. exact X2.
  - apply Bool.eqb_prop. exact X3.
  - apply Uint63.eqb_spec. exact X5.
  - apply Uint63.eqb_spec. exact X6.
  - exact X7.
  - exact X8.
  - exact X9.
  - intros E. rewrite E in X10. revert X10.
    rewrite (proj2 (Leibniz.eqb_spec _ _) eq_refl). discriminate.
Qed.

Lemma valid_color_printers (hex : string) (R G B : int) :
  rgb_of_hex hex = Some (R, G, B) ->
  exists hi mid lo p p2 h1 h2,
    (to_Z lo <= to_Z mid <= to_Z hi)%Z /\ (to_Z hi < 256)%Z
    /\ is_order R G B hi mid lo
    /\ printer_of (s (hexToHSL_string hex)) (l (hexToHSL_string hex)) = Some p
    /\ printer_of (newSaturation (hexToHSL_string hex)) (newLightness (hexToHSL_string hex))
       = Some p2
    /\ decoded_hue p (h (hexToHSL_string hex)) = Some h1
    /\ decoded_hue p2 (newHue (hexToHSL_string hex)) = Some h2
    /\ extreme_facts (hexToHSL_string hex) lo hi p p2.
Proof.
  intros H. apply hexToHSL_string_valid in H as (-> & HR & HG & HB).
  destruct (color_printers R G B HR HG HB)
    as (hi & mid & lo & p & p2 & h1 & h2 & c & -> & F).
  exists hi, mid, lo, p, p2, h1, h2. exact F.
Qed.

(** The complementary colour of a well-formed colour, as printed and as
    read back. *)
Lemma complementary_printed (hex : string) (R G B : int) :
  rgb_of_hex hex = Some (R, G, B) ->
  exists out lo hi p p2 h2,
    calculateComplementaryColor (JsString hex) = Return out
    /\ extreme_facts (hexToHSL_string hex) lo hi p p2
    /\ hexToHSL_string out
       = {| h := h2; s := sat_core (p_cbot p2) (p_ctop p2);
            l := light_core (p_cbot p2) (p_ctop p2) |}
    /\ valid_hex_color out = true
    /\ String.length out = 7%nat
    /\ toLowerCase out = out.
Proof.
  intros H.
  assert (Hv : valid_hex_color hex = true) by (unfold valid_hex_color; rewrite H; reflexivity).
  destruct (valid_hex_color_nonempty hex Hv) as (c0 & rest & ->).
  destruct (valid_color_printers _ R G B H)
    as (hi & mid & lo & p & p2 & h1 & h2 & _ & _ & _ & _ & Hp2 & _ & D2 & F).
  destruct (printed_color _ _ p2 _ h2 Hp2 D2) as (ka & kb & kc & k & E & _ & _ & Len & Low).
  eexists. exists lo, hi, p, p2, h2.
  split; [apply calculateComplementaryColor_string|].
  split; [exact F|].
  split; [exact (decoded_hue_sound _ _ p2 _ h2 Hp2 D2)|].
  split; [unfold valid_hex_color; rewrite E; reflexivity|].
  split; [exact Len | exact Low].
Qed.

Lemma return_inj {A : Type} (a b : A) : Return a = Return b -> a = b.
Proof. intros H. injection H as H. exact H. Qed.

(** *** Well-formed colours, printed and read back *)

(** X5: for a well-formed colour, [hexToHSL] returns saturation 0 exactly
    when the colour is a grey (its three channel bytes are equal). *)
Theorem saturation_zero_iff_gray (hex : string) (R G B : int) :
  rgb_of_hex hex = Some (R, G, B) ->
  ((s (hexToHSL_string hex) =? 0) = true <-> R = G /\ G = B).
Proof.
  intros H.
  destruct (valid_color_printers _ R G B H)
    as (hi & mid & lo & p & p2 & h1 & h2 & Hs & Hhi & Ho & _ & _ & _ & _ & F).
  rewrite (ef_gray _ _ _ _ _ F). unfold is_order in Ho. split.
  - intros E. apply Uint63.eqb_spec in E. subst hi.
    assert (mid = lo) by (apply Uint63.to_Z_inj; lia). subst mid.
    destruct Ho as [E|[E|[E|[E|[E|E]]]]]; injection E as -> -> ->; auto.
  - intros [-> ->]. apply Uint63.eqb_spec.
    destruct Ho as [E|[E|[E|[E|[E|E]]]]]; injection E as E1 E2 E3; congruence.
Qed.

Lemma saturation_zero_iff_gray_witness :
  rgb_of_hex "#808080" = Some (128, 128, 128)%uint63
  /\ ((s (hexToHSL_string "#808080") =? 0) = true
      <-> (128 = 128 /\ 128 = 128)%uint63).
Proof.
  split; [reflexivity|].
  apply (saturation_zero_iff_gray "#808080" 128 128 128). reflexivity.
Defined.

(** X6: for a well-formed colour, [hexToHSL] returns lightness 0 exactly for
    black and lightness 100 exactly for white. *)
Theorem lightness_extremes_iff_black_white (hex : string) (R G B : int) :
  rgb_of_hex hex = Some (R, G, B) ->
  ((l (hexToHSL_string hex) =? 0) = true <-> (R, G, B) = (0, 0, 0)%uint63)
  /\ ((l (hexToHSL_string hex) =? 100) = true <-> (R, G, B) = (255, 255, 255)%uint63).
Proof.
  intros H.
  destruct (valid_color_printers _ R G B H)
    as (hi & mid & lo & p & p2 & h1 & h2 & Hs & Hhi & Ho & _ & _ & _ & _ & F).
  rewrite (ef_black _ _ _ _ _ F), (ef_white _ _ _ _ _ F). unfold is_order in Ho.
  pose proof (Uint63.to_Z_bounded lo) as Blo.
  pose proof (Uint63.to_Z_bounded mid) as Bmid.
  split; split.
  - intros E. apply Uint63.eqb_spec in E. subst hi.
    change (to_Z 0) with 0%Z in Hs.
    assert (mid = 0%uint63) by (apply Uint63.to_Z_inj; change (to_Z 0) with 0%Z; lia).
    assert (lo = 0%uint63) by (apply Uint63.to_Z_inj; change (to_Z 0) with 0%Z; lia).
    subst mid lo.
    destruct Ho as [E|[E|[E|[E|[E|E]]]]]; exact E.
  - intros E. apply Uint63.eqb_spec.
    destruct Ho as [E'|[E'|[E'|[E'|[E'|E']]]]]; congruence.
  - intros E. apply Uint63.eqb_spec in E. subst lo.
    change (to_Z 255) with 255%Z in Hs.
    assert (mid = 255%uint63) by (apply Uint63.to_Z_inj; change (to_Z 255) with 255%Z; lia).
    assert (hi = 255%uint63) by (apply Uint63.to_Z_inj; change (to_Z 255) with 255%Z; lia).
    subst mid hi.
    destruct Ho as [E|[E|[E|[E|[E|E]]]]]; exact E.
  - intros E. apply Uint63.eqb_spec.
    destruct Ho as [E'|[E'|[E'|[E'|[E'|E']]]]]; congruence.
Qed.

Lemma lightness_extremes_iff_black_white_witness :
  rgb_of_hex "#FFFFFF" = Some (255, 255, 255)%uint63
  /\ (l (hexToHSL_string "#FFFFFF") =? 100) = true.
Proof.
  split; [reflexivity|].
  apply (lightness_extremes_iff_black_white "#FFFFFF" 255 255 255); reflexivity.
Defined.

(** X7: printing the HSL value of a well-formed colour with [hslToHex] gives
    a well-formed colour whose largest and smallest channel bytes are those
    of the colour: the round trip can move the middle channel only. *)
Theorem round_trip_keeps_extremes (hex : string) (R G B : int) :
  rgb_of_hex hex = Some (R, G, B) ->
  exists R' G' B',
    rgb_of_hex (hslToHex (h (hexToHSL_string hex)) (s (hexToHSL_string hex))
                  (l (hexToHSL_string hex))) = Some (R', G', B')
    /\ byte_max R' G' B' = byte_max R G B
    /\ byte_min R' G' B' = byte_min R G B.
Proof.
  intros H.
  destruct (valid_color_printers _ R G B H)
    as (hi & mid & lo & p & p2 & h1 & h2 & Hs & Hhi & Ho & Hp & _ & D1 & _ & F).
  destruct (printed_color _ _ p _ h1 Hp D1) as (ka & kb & kc & k & E & Ok' & Hk & _).
  rewrite (ef_top _ _ _ _ _ F), (ef_bot _ _ _ _ _ F) in *.
  exists ka, kb, kc. split; [exact E|].
  destruct (order_extremes _ _ _ _ _ _ Ho Hs) as [-> ->].
  exact (order_extremes _ _ _ _ _ _ Ok' Hk).
Qed.

Lemma round_trip_keeps_extremes_witness :
  rgb_of_hex "#0002d2" = Some (0, 2, 210)%uint63
  /\ exists R' G' B',
       rgb_of_hex (hslToHex (h (hexToHSL_string "#0002d2")) (s (hexToHSL_string "#0002d2"))
                     (l (hexToHSL_string "#0002d2"))) = Some (R', G', B')
       /\ byte_max R' G' B' = byte_max 0 2 210
       /\ byte_min R' G' B' = byte_min 0 2 210.
Proof.
  split; [reflexivity|].
  apply (round_trip_keeps_extremes "#0002d2" 0 2 210). reflexivity.
Defined.

(** X8: the complementary colour of a well-formed colour is a well-formed
    colour again: a ["#"] and six lower-case hex digits.  It never denotes
    the colour it was computed from. *)
Theorem complementary_is_valid_color (hex : string) :
  valid_hex_color hex = true ->
  exists out,
    calculateComplementaryColor (JsString hex) = Return out
    /\ valid_hex_color out = true
    /\ String.length out = 7%nat
    /\ toLowerCase out = out
    /\ rgb_of_hex out <> rgb_of_hex hex.
Proof.
  intros Hv. destruct (valid_hex_color_elim hex Hv) as (R & G & B & H).
  destruct (complementary_printed hex R G B H)
    as (out & lo & hi & p & p2 & h2 & Hc & F & Hback & Hvalid & Len & Low).
  exists out. repeat (split; [assumption|]).
  intros E. rewrite H in E.
  pose proof (same_bytes_same_hsl out hex _ E H) as Same.
  apply (ef_differs _ _ _ _ _ F).
  rewrite <- Same, Hback. reflexivity.
Qed.

Lemma complementary_is_valid_color_witness :
  valid_hex_color "#282c34" = true
  /\ exists out,
       calculateComplementaryColor (JsString "#282c34") = Return out
       /\ valid_hex_color out = true
       /\ String.length out = 7%nat
       /\ toLowerCase out = out
       /\ rgb_of_hex out <> rgb_of_hex "#282c34".
Proof.
  split; [reflexivity|].
  apply (complementary_is_valid_color "#282c34"). reflexivity.
Defined.

(** X9: the lightness [hexToHSL] reads from the complementary colour of a
    well-formed colour is at least 20 points away from the lightness of
    the colour. *)
Theorem complementary_lightness_contrast (hex out : string) :
  valid_hex_color hex = true ->
  calculateComplementaryColor (JsString hex) = Return out ->
  (20 <=? abs (l (hexToHSL_string out) - l (hexToHSL_string hex))) = true.
Proof.
  intros Hv Hout. destruct (valid_hex_color_elim hex Hv) as (R & G & B & H).
  destruct (complementary_printed hex R G B H)
    as (out' & lo & hi & p & p2 & h2 & Hc & F & Hback & _).
  rewrite Hc in Hout. apply return_inj in Hout. subst out'.
  rewrite Hback. cbn [l]. exact (ef_contrast _ _ _ _ _ F).
Qed.

Lemma complementary_lightness_contrast_witness :
  valid_hex_color "#ff0000" = true
  /\ calculateComplementaryColor (JsString "#ff0000") = Return "#089191"%string
  /\ (20 <=? abs (l (hexToHSL_string "#089191") - l (hexToHSL_string "#ff0000"))) = true.
Proof.
  split; [reflexivity|]. split; [vm_compute; reflexivity|].
  apply (complementary_lightness_contrast "#ff0000" "#089191");
    [reflexivity | vm_compute; reflexivity].
Defined.

(** X10: the complementary colour is printed with 8 bits a channel, so what
    [hexToHSL] reads back from it is not exactly the adjusted saturation and
    lightness it was printed from: the saturation is within 1 point of
    [newSaturation] and the lightness within a quarter of a point of
    [newLightness]. *)
Theorem complementary_read_back (hex out : string) :
  valid_hex_color hex = true ->
  calculateComplementaryColor (JsString hex) = Return out ->
  (abs (s (hexToHSL_string out) - newSaturation (hexToHSL_string hex)) <=? 1) = true
  /\ (abs (l (hexToHSL_string out) - newLightness (hexToHSL_string hex)) <? 0.25) = true.
Proof.
  intros Hv Hout. destruct (valid_hex_color_elim hex Hv) as (R & G & B & H).
  destruct (complementary_printed hex R G B H)
    as (out' & lo & hi & p & p2 & h2 & Hc & F & Hback & _).
  rewrite Hc in Hout. apply return_inj in Hout. subst out'.
  rewrite Hback. cbn [s l].
  split; [exact (ef_saturation _ _ _ _ _ F) | exact (ef_lightness _ _ _ _ _ F)].
Qed.

Lemma complementary_read_back_witness :
  valid_hex_color "#ff0000" = true
  /\ calculateComplementaryColor (JsString "#ff0000") = Return "#089191"%string
  /\ (abs (s (hexToHSL_string "#089191") - newSaturation (hexToHSL_string "#ff0000")) <=? 1)
     = true
  /\ (abs (l (hexToHSL_string "#089191") - newLightness (hexToHSL_string "#ff0000")) <? 0.25)
     = true.
Proof.
  split; [reflexivity|]. split; [vm_compute; reflexivity|].
  apply (complementary_read_back "#ff0000" "#089191");
    [reflexivity | vm_compute; reflexivity].
Defined.

(** *** [hslToHex] without chroma *)

Lemma achromatic_elim (n : int) :
  (to_Z n <= 1000)%Z ->
  chroma 0 (of_uint63 n / 10) = 0
  /\ (exists v, channel_byte (print_level 0 (offset 0 (of_uint63 n / 10))) = Some v)
  /\ chroma (of_uint63 n / 10) 0 = 0
  /\ chroma (of_uint63 n / 10) 100 = 0.
Proof.
  intros Hn.
  pose proof (proj1 (forallb_forall _ _) achromatic_table n (in_thousand_tenths n Hn)) as T.
  unfold achromatic_ok in T. cbv zeta in T.
  apply andb_prop in T as [T T4]. apply andb_prop in T as [T T3].
  apply andb_prop in T as [T1 T2].
  split; [apply Leibniz.eqb_spec; exact T1|].
  split; [|split; apply Leibniz.eqb_spec; assumption].
  destruct (channel_byte _) as [v|]; [|discriminate]. exists v. reflexivity.
Qed.

Lemma mid_zero (k : int) : (to_Z k < 360)%Z -> mid_component (of_uint63 k) 0 = 0.
Proof.
  intros Hk.
  pose proof (proj1 (forallb_forall _ _) mid_zero_table k (in_degrees k Hk)) as T.
  apply Leibniz.eqb_spec. exact T.
Qed.

Lemma hslToHex_no_chroma (k : int) (s l : number) :
  (to_Z k < 360)%Z -> chroma s l = 0 ->
  hslToHex (of_uint63 k) s l
  = hex_of_rgb (print_level 0 (offset s l), print_level 0 (offset s l),
                print_level 0 (offset s l)).
Proof.
  intros Hk Hc.
  rewrite hslToHex_unfold, hslToRGB_arrange, Hc, (mid_zero k Hk).
  unfold arrange. split_sectors; reflexivity.
Qed.

(** X11: at saturation 0 [hslToHex] prints a grey, whatever the hue: for a
    hue of a whole number of degrees below 360 and a lightness of a whole
    number of tenths up to 100, the three channels of the result are the
    same byte. *)
Theorem hslToHex_zero_saturation_is_gray (k n : int) :
  (to_Z k < 360)%Z -> (to_Z n <= 1000)%Z ->
  exists v, rgb_of_hex (hslToHex (of_uint63 k) 0 (of_uint63 n / 10)) = Some (v, v, v).
Proof.
  intros Hk Hn. destruct (achromatic_elim n Hn) as (Hc & (v & Hv) & _).
  exists v. rewrite (hslToHex_no_chroma k _ _ Hk Hc).
  exact (proj1 (hex_of_rgb_bytes _ _ _ _ _ _ Hv Hv Hv)).
Qed.

Lemma hslToHex_zero_saturation_is_gray_witness :
  exists v, rgb_of_hex (hslToHex (of_uint63 210) 0 (of_uint63 502 / 10)) = Some (v, v, v).
Proof.
  apply (hslToHex_zero_saturation_is_gray 210 502);
    [vm_compute; reflexivity | vm_compute; discriminate].
Defined.

(** X12: at lightness 0 [hslToHex] prints black and at lightness 100 white,
    whatever the hue and the saturation (a whole number of degrees below
    360, a whole number of tenths up to 100). *)
Theorem hslToHex_black_and_white (k n : int) :
  (to_Z k < 360)%Z -> (to_Z n <= 1000)%Z ->
  hslToHex (of_uint63 k) (of_uint63 n / 10) 0 = "#000000"%string
  /\ hslToHex (of_uint63 k) (of_uint63 n / 10) 100 = "#ffffff"%string.
Proof.
  intros Hk Hn. destruct (achromatic_elim n Hn) as (_ & _ & H0 & H100).
  split.
  - rewrite (hslToHex_no_chroma k _ _ Hk H0). unfold offset. rewrite H0.
    vm_compute. reflexivity.
  - rewrite (hslToHex_no_chroma k _ _ Hk H100). unfold offset. rewrite H100.
    vm_compute. reflexivity.
Qed.

Lemma hslToHex_black_and_white_witness :
  hslToHex (of_uint63 210) (of_uint63 502 / 10) 0 = "#000000"%string
  /\ hslToHex (of_uint63 210) (of_uint63 502 / 10) 100 = "#ffffff"%string.
Proof.
  apply (hslToHex_black_and_white 210 502);
    [vm_compute; reflexivity | vm_compute; discriminate].
Defined.

(** *** The hue sector and the channels of the round trip *)

Lemma channels_table :
  forallb (fun hi =>
    forallb (fun lo => if (lo <? hi)%uint63 then channels_ok lo hi else true) bytes)
    bytes = true.
Proof. vm_compute. reflexivity. Qed.

Lemma channels_run_sound (P : number -> option (int * int * int)) (key : int -> number)
    (orig : int -> int * int * int) (mids : list int) :
  forall prev printed,
    printed = P prev -> channels_run P key orig mids prev printed = true ->
    forall mid, In mid mids ->
    exists t, P (key mid) = Some t /\ near3 t (orig mid) = true.
Proof.
  induction mids as [|m0 rest IH]; intros prev printed Hinv Hrun mid Hin.
  - destruct Hin.
  - cbn [channels_run] in Hrun. cbv zeta in Hrun.
    assert (T : (if Leibniz.eqb (key m0) prev then printed else P (key m0)) = P (key m0)).
    { destruct (Leibniz.eqb (key m0) prev) eqn:E; [|reflexivity].
      apply Leibniz.eqb_spec in E. rewrite E. exact Hinv. }
    rewrite T in Hrun. apply andb_prop in Hrun as [Hhead Hrest].
    destruct Hin as [<- | Hin].
    + destruct (P (key m0)) as [t|]; [|discriminate]. exists t. auto.
    + exact (IH (key m0) (P (key m0)) eq_refl Hrest mid Hin).
Qed.

Lemma printed_bytes_elim (p : printer) (sector : number -> bool) (h0 : number)
    (orig : int * int * int) :
  (exists t, printed_bytes p sector h0 = Some t /\ near3 t orig = true) ->
  channel_facts p sector h0 orig.
Proof.
  unfold printed_bytes, channel_facts. intros (t & E & N).
  destruct (sector h0); [|discriminate]. split; [reflexivity|].
  destruct (channel_byte _) as [k|]; [|discriminate].
  injection E as <-. exists k. auto.
Qed.

Lemma channels_ok_elim (lo hi : int) :
  (to_Z lo < to_Z hi)%Z -> (to_Z hi < 256)%Z ->
  exists p,
    printer_of (sat_core (chan lo) (chan hi)) (light_core (chan lo) (chan hi)) = Some p
    /\ forall mid, In mid (between lo hi) ->
         channel_facts p (in_sector 0 60)
           (hue_core (chan hi) (chan mid) (chan lo) (chan lo) (chan hi)) (hi, mid, lo)
         /\ channel_facts p in_last_sector
              (hue_core (chan hi) (chan lo) (chan mid) (chan lo) (chan hi)) (hi, lo, mid)
         /\ channel_facts p (in_sector 60 120)
              (hue_core (chan mid) (chan hi) (chan lo) (chan lo) (chan hi)) (mid, hi, lo)
         /\ channel_facts p (in_sector 120 180)
              (hue_core (chan lo) (chan hi) (chan mid) (chan lo) (chan hi)) (lo, hi, mid)
         /\ channel_facts p (in_sector 240 300)
              (hue_core (chan mid) (chan lo) (chan hi) (chan lo) (chan hi)) (mid, lo, hi)
         /\ channel_facts p (in_sector 180 240)
              (hue_core (chan lo) (chan mid) (chan hi) (chan lo) (chan hi)) (lo, mid, hi).
Proof.
  intros Hlh Hh.
  assert (Hhi : In hi bytes) by (apply in_bytes; lia).
  assert (Hlo : In lo bytes) by (apply in_bytes; lia).
  pose proof (proj1 (forallb_forall _ _) channels_table hi Hhi) as T.
  cbv beta in T.
  pose proof (proj1 (forallb_forall _ _) T lo Hlo) as T2.
  cbv beta in T2.
  replace (lo <? hi)%uint63 with true in T2
    by (symmetry; apply Uint63.ltb_spec; exact Hlh).
  unfold channels_ok in T2. cbv zeta in T2.
  destruct (printer_of _ _) as [p|]; [|discriminate].
  exists p. split; [reflexivity|]. intros mid Hmid.
  repeat (apply andb_prop in T2; destruct T2 as [T2 ?]).
  repeat match goal with
         | A : channels_run _ _ _ _ _ _ = true |- _ =>
             apply channels_run_sound with (mid := mid) in A; [|reflexivity|exact Hmid];
             apply printed_bytes_elim in A
         end.
  repeat match goal with |- _ /\ _ => split end; assumption.
Qed.

Lemma printed_triple (s l : number) (p : printer) (h0 : number) (k : int) :
  printer_of s l = Some p ->
  channel_byte (print_level (mid_component h0 (p_c p)) (p_m p)) = Some k ->
  rgb_of_hex (hslToHex h0 s l) = Some (arrange h0 (p_top p) k (p_bot p)).
Proof.
  unfold printer_of. intros Hp Hk.
  destruct (channel_byte (print_level (chroma s l) (offset s l))) as [top|] eqn:Htop;
    [|discriminate].
  destruct (channel_byte (print_level 0 (offset s l))) as [bot|] eqn:Hbot;
    [|discriminate].
  injection Hp as <-. cbn [p_c p_m p_top p_bot] in *.
  rewrite hslToHex_unfold, hslToRGB_arrange.
  unfold arrange.
  split_sectors;
    match goal with
    | |- context [hex_of_rgb (?a, ?b, ?c)] =>
        match goal with
        | Ha : channel_byte a = Some ?ka, Hb : channel_byte b = Some ?kb,
          Hc : channel_byte c = Some ?kc |- _ =>
            exact (proj1 (hex_of_rgb_bytes a b c ka kb kc Ha Hb Hc))
        end
    end.
Qed.

Section Near.

Local Open Scope Z_scope.

Lemma near_elim (a b : int) : near a b = true -> Z.abs (to_Z a - to_Z b) <= 2.
Proof.
  unfold near. pose proof (Uint63.to_Z_bounded a). pose proof (Uint63.to_Z_bounded b).
  destruct (a <=? b)%uint63 eqn:E; intros H1; apply Uint63.leb_spec in H1;
    rewrite Uint63.sub_spec in H1; change (to_Z 2) with 2 in H1.
  - apply Uint63.leb_spec in E. rewrite Z.mod_small in H1 by lia. lia.
  - assert (to_Z b < to_Z a).
    { destruct (Z_lt_le_dec (to_Z b) (to_Z a)) as [L|L]; [exact L|].
      apply Uint63.leb_spec in L. rewrite L in E. discriminate E. }
    rewrite Z.mod_small in H1 by lia. lia.
Qed.

Lemma near_refl (a : int) : near a a = true.
Proof.
  unfold near.
  replace (a <=? a)%uint63 with true by (symmetry; apply Uint63.leb_spec; lia).
  apply Uint63.leb_spec. rewrite Uint63.sub_spec, Z.sub_diag.
  change (0 mod wB) with 0. change (to_Z 2) with 2. lia.
Qed.

Lemma near3_elim (a b c a' b' c' : int) :
  near3 (a, b, c) (a', b', c') = true ->
  Z.abs (to_Z a - to_Z a') <= 2 /\ Z.abs (to_Z b - to_Z b') <= 2
  /\ Z.abs (to_Z c - to_Z c') <= 2.
Proof.
  cbn [near3]. intros H. apply andb_prop in H as [H H3]. apply andb_prop in H as [H1 H2].
  repeat split; apply near_elim; assumption.
Qed.

End Near.

Lemma order_values (a b c hi mid lo : int) :
  is_order a b c hi mid lo -> (to_Z lo <= to_Z mid <= to_Z hi)%Z ->
  to_Z lo = to_Z hi ->
  to_Z a = to_Z hi /\ to_Z b = to_Z hi /\ to_Z c = to_Z hi.
Proof.
  unfold is_order. intros Ho Hs E.
  destruct Ho as [H|[H|[H|[H|[H|H]]]]]; injection H as -> -> ->; lia.
Qed.

(** The hue of a colour that is no grey, and the colour printed from its HSL
    value, by the order of its channels. *)
Lemma order_channel_facts (hex : string) (R G B hi mid lo : int) :
  rgb_of_hex hex = Some (R, G, B) ->
  is_order R G B hi mid lo ->
  (to_Z lo <= to_Z mid <= to_Z hi)%Z -> (to_Z lo < to_Z hi)%Z ->
  exists p,
    printer_of (s (hexToHSL_string hex)) (l (hexToHSL_string hex)) = Some p
    /\ ((R, G, B) = (hi, mid, lo) ->
        channel_facts p (in_sector 0 60) (h (hexToHSL_string hex)) (R, G, B))
    /\ ((R, G, B) = (mid, hi, lo) ->
        channel_facts p (in_sector 60 120) (h (hexToHSL_string hex)) (R, G, B))
    /\ ((R, G, B) = (lo, hi, mid) ->
        channel_facts p (in_sector 120 180) (h (hexToHSL_string hex)) (R, G, B))
    /\ ((R, G, B) = (lo, mid, hi) ->
        channel_facts p (in_sector 180 240) (h (hexToHSL_string hex)) (R, G, B))
    /\ ((R, G, B) = (mid, lo, hi) ->
        channel_facts p (in_sector 240 300) (h (hexToHSL_string hex)) (R, G, B))
    /\ ((R, G, B) = (hi, lo, mid) ->
        channel_facts p in_last_sector (h (hexToHSL_string hex)) (R, G, B)).
Proof.
  intros H Ho Hs Hlt.
  apply hexToHSL_string_valid in H as (-> & HR & HG & HB).
  destruct (order_bytes _ _ _ _ _ _ Ho HR HG HB) as (Hhi & _ & _).
  destruct (channels_ok_elim lo hi Hlt Hhi) as (p & Hp & Hall).
  destruct (Hall mid (in_between lo hi mid Hs Hhi)) as (F1 & F2 & F3 & F4 & F5 & F6).
  rewrite hsl_of_rgb_core. cbv zeta. fold (chan R) (chan G) (chan B).
  destruct (order_minmax _ _ _ _ _ _ Ho Hs Hhi) as [-> ->]. cbn [h s l].
  exists p. split; [exact Hp|].
  repeat match goal with |- _ /\ _ => split end;
    intros E; injection E as -> -> ->; assumption.
Qed.

(** X13: the order of the three channels of a colour decides the sixth of
    the colour wheel in which [hexToHSL] puts its hue: 0 to 60 degrees for
    R >= G >= B, 60 to 120 for G >= R >= B, 120 to 180 for G >= B >= R,
    180 to 240 for B >= G >= R, 240 to 300 for B >= R >= G, and 300 to 359
    or 0 for R >= B >= G.  (A grey has hue 0.) *)
Theorem hue_sector_of_channel_order (hex : string) (R G B : int) :
  rgb_of_hex hex = Some (R, G, B) -> ~ (R = G /\ G = B) ->
  ((to_Z B <= to_Z G <= to_Z R)%Z -> in_sector 0 60 (h (hexToHSL_string hex)) = true)
  /\ ((to_Z B <= to_Z R <= to_Z G)%Z -> in_sector 60 120 (h (hexToHSL_string hex)) = true)
  /\ ((to_Z R <= to_Z B <= to_Z G)%Z -> in_sector 120 180 (h (hexToHSL_string hex)) = true)
  /\ ((to_Z R <= to_Z G <= to_Z B)%Z -> in_sector 180 240 (h (hexToHSL_string hex)) = true)
  /\ ((to_Z G <= to_Z R <= to_Z B)%Z -> in_sector 240 300 (h (hexToHSL_string hex)) = true)
  /\ ((to_Z G <= to_Z B <= to_Z R)%Z -> in_last_sector (h (hexToHSL_string hex)) = true).
Proof.
  intros H Hng.
  assert (Lt : forall hi mid lo,
             is_order R G B hi mid lo -> (to_Z lo <= to_Z mid <= to_Z hi)%Z ->
             (to_Z lo < to_Z hi)%Z).
  { intros hi mid lo Ho Hs.
    destruct (Z_lt_le_dec (to_Z lo) (to_Z hi)) as [L|L]; [exact L|].
    exfalso. apply Hng.
    destruct (order_values _ _ _ _ _ _ Ho Hs ltac:(lia)) as (E1 & E2 & E3).
    split; apply Uint63.to_Z_inj; lia. }
  unfold is_order in Lt.
  repeat match goal with |- _ /\ _ => split end; intros Hs.
  - destruct (order_channel_facts hex R G B R G B H) as (p & _ & F & _);
      [unfold is_order; auto 10 | exact Hs | apply (Lt R G B); auto 10 |].
    exact (proj1 (F eq_refl)).
  - destruct (order_channel_facts hex R G B G R B H) as (p & _ & _ & F & _);
      [unfold is_order; auto 10 | exact Hs | apply (Lt G R B); auto 10 |].
    exact (proj1 (F eq_refl)).
  - destruct (order_channel_facts hex R G B G B R H) as (p & _ & _ & _ & F & _);
      [unfold is_order; auto 10 | exact Hs | apply (Lt G B R); auto 10 |].
    exact (proj1 (F eq_refl)).
  - destruct (order_channel_facts hex R G B B G R H) as (p & _ & _ & _ & _ & F & _);
      [unfold is_order; auto 10 | exact Hs | apply (Lt B G R); auto 10 |].
    exact (proj1 (F eq_refl)).
  - destruct (order_channel_facts hex R G B B R G H) as (p & _ & _ & _ & _ & _ & F & _);
      [unfold is_order; auto 10 | exact Hs | apply (Lt B R G); auto 10 |].
    exact (proj1 (F eq_refl)).
  - destruct (order_channel_facts hex R G B R B G H) as (p & _ & _ & _ & _ & _ & _ & F);
      [unfold is_order; auto 10 | exact Hs | apply (Lt R B G); auto 10 |].
    exact (proj1 (F eq_refl)).
Qed.

Lemma hue_sector_of_channel_order_witness :
  rgb_of_hex "#f9f596" = Some (249, 245, 150)%uint63
  /\ in_sector 0 60 (h (hexToHSL_string "#f9f596")) = true.
Proof.
  split; [reflexivity|].
  apply (hue_sector_of_channel_order "#f9f596" 249 245 150).
  - reflexivity.
  - intros [E _]. vm_compute in E. discriminate E.
  - vm_compute. split; discriminate.
Defined.

(** X14: printing the HSL value of a well-formed colour with [hslToHex]
    gives a colour that differs from it by at most 2 in each channel. *)
Theorem round_trip_channels_within_two (hex : string) (R G B : int) :
  rgb_of_hex hex = Some (R, G, B) ->
  exists R' G' B',
    rgb_of_hex (hslToHex (h (hexToHSL_string hex)) (s (hexToHSL_string hex))
                  (l (hexToHSL_string hex))) = Some (R', G', B')
    /\ (Z.abs (to_Z R' - to_Z R) <= 2)%Z
    /\ (Z.abs (to_Z G' - to_Z G) <= 2)%Z
    /\ (Z.abs (to_Z B' - to_Z B) <= 2)%Z.
Proof.
  intros H.
  destruct (valid_color_printers _ R G B H)
    as (hi & mid & lo & p & p2 & h1 & h2 & Hs & Hhi & Ho & Hp & _ & D1 & _ & F).
  destruct (Z_lt_le_dec (to_Z lo) (to_Z hi)) as [Hlt|Hge].
  - destruct (order_channel_facts hex R G B hi mid lo H Ho Hs Hlt)
      as (p' & Hp' & F1 & F2 & F3 & F4 & F5 & F6).
    assert (C : exists sector,
               channel_facts p' sector (h (hexToHSL_string hex)) (R, G, B)).
    { unfold is_order in Ho.
      destruct Ho as [E|[E|[E|[E|[E|E]]]]]; eexists; eauto. }
    destruct C as (sector & _ & k & Hk & N).
    pose proof (printed_triple _ _ p' _ k Hp' Hk) as E.
    destruct (arrange _ _ _ _) as [[R' G'] B'].
    exists R', G', B'. split; [exact E|]. apply near3_elim. exact N.
  - destruct (printed_color _ _ p _ h1 Hp D1) as (ka & kb & kc & k & E & Ok' & Hk & _).
    rewrite (ef_top _ _ _ _ _ F), (ef_bot _ _ _ _ _ F) in *.
    destruct (order_values _ _ _ _ _ _ Ho Hs ltac:(lia)) as (E1 & E2 & E3).
    destruct (order_values _ _ _ _ _ _ Ok' Hk ltac:(lia)) as (E4 & E5 & E6).
    exists ka, kb, kc. split; [exact E|]. lia.
Qed.

Lemma round_trip_channels_within_two_witness :
  rgb_of_hex "#0002d2" = Some (0, 2, 210)%uint63
  /\ exists R' G' B',
       rgb_of_hex (hslToHex (h (hexToHSL_string "#0002d2")) (s (hexToHSL_string "#0002d2"))
                     (l (hexToHSL_string "#0002d2"))) = Some (R', G', B')
       /\ (Z.abs (to_Z R' - to_Z 0) <= 2)%Z
       /\ (Z.abs (to_Z G' - to_Z 2) <= 2)%Z
       /\ (Z.abs (to_Z B' - to_Z 210) <= 2)%Z.
Proof.
  split; [reflexivity|].
  apply (round_trip_channels_within_two "#0002d2" 0 2 210). reflexivity.
Defined.

(** The bound of 2 is reached, and the clamp of the saturation to 60 is not
    kept by the colour as printed. *)
Example round_trip_moves_channel_by_two :
  hslToHex (h (hexToHSL_string "#0002d2")) (s (hexToHSL_string "#0002d2"))
    (l (hexToHSL_string "#0002d2")) = "#0004d2"%string.
Proof. vm_compute. reflexivity. Qed.

Example complementary_saturation_read_back :
  calculateComplementaryColor (JsString "#3333cb") = Return "#eaeaad"%string
  /\ newSaturation (hexToHSL_string "#3333cb") = 60
  /\ s (hexToHSL_string "#eaeaad") = 59.2.
Proof. vm_compute. repeat split; reflexivity. Qed.

(** *** The provider and the header *)

Lemma Object_is_eq (a b : JsValue) : Object_is a b = true -> a = b.
Proof.
  destruct a, b; cbn [Object_is]; try discriminate; intros H; try reflexivity.
  - apply Bool.eqb_prop in H. subst. reflexivity.
  - apply Leibniz.eqb_spec in H. subst. reflexivity.
  - apply String.eqb_eq in H. subst. reflexivity.
  - apply Nat.eqb_eq in H. subst. reflexivity.
Qed.

Lemma Object_is_refl (a : JsValue) : Object_is a a = true.
Proof.
  destruct a; cbn [Object_is]; try reflexivity.
  - apply Bool.eqb_reflx.
  - apply Leibniz.eqb_spec. reflexivity.
  - apply String.eqb_refl.
  - apply Nat.eqb_refl.
Qed.

Lemma throws_truthy_non_string (v : JsValue) :
  truthy_non_string v = true -> calculateComplementaryColor v = Throw TypeError.
Proof.
  unfold calculateComplementaryColor.
  destruct v as [| |[]|x|str|ref]; cbn [truthy_non_string js_not]; try discriminate.
  - reflexivity.
  - intros H. apply negb_true_iff in H. rewrite H. reflexivity.
  - reflexivity.
Qed.

Lemma returns_otherwise (v : JsValue) :
  truthy_non_string v = false -> exists out, calculateComplementaryColor v = Return out.
Proof.
  unfold calculateComplementaryColor.
  destruct v as [| |[]|x|[|c0 rest]|ref]; cbn [truthy_non_string js_not]; try discriminate;
    intros H; try (eexists; reflexivity).
  apply negb_false_iff in H. rewrite H. eexists. reflexivity.
Qed.

Lemma complementaryEffect_elim (st st' : LogoState) :
  complementaryEffect st = Return st' ->
  settled st' /\ logoUrl st' = logoUrl st /\ dominantColor st' = dominantColor st.
Proof.
  unfold complementaryEffect, settled.
  destruct (calculateComplementaryColor (dominantColor st)) as [out|e] eqn:E;
    cbn [bind]; [|discriminate].
  intros H. apply return_inj in H. subst st'. cbn [logoUrl dominantColor complementaryColor].
  auto.
Qed.

Lemma rendered_elim (hostname time : string) (r : HeaderStyleResponse) (st st' : LogoState) :
  settled st -> rendered st (refreshLogo hostname time r st) = Return st' ->
  settled st'
  /\ logoUrl st' = logoUrl (fetchHeaderStyle hostname time r st)
  /\ dominantColor st' = dominantColor (fetchHeaderStyle hostname time r st).
Proof.
  unfold rendered, refreshLogo. intros Hs.
  destruct (Object_is _ _) eqn:E.
  - intros H. apply return_inj in H. subst st'. apply Object_is_eq in E.
    split; [|auto]. unfold settled in *. rewrite <- E.
    unfold fetchHeaderStyle.
    destruct (response_data r) as [[u v]|];
      cbn [headerStyleReceived complementaryColor]; exact Hs.
  - apply complementaryEffect_elim.
Qed.

Lemma mounted_elim :
  exists st, mounted = Return st /\ settled st
             /\ logoUrl st = logoUrl initialState
             /\ dominantColor st = dominantColor initialState.
Proof.
  unfold mounted, complementaryEffect. cbn [dominantColor initialState].
  rewrite calculateComplementaryColor_string. cbn [bind].
  eexists. split; [reflexivity|]. unfold settled.
  cbn [dominantColor complementaryColor logoUrl].
  rewrite calculateComplementaryColor_string. auto.
Qed.

Lemma refreshes_elim (hostname : string) (rs : list (string * HeaderStyleResponse)) :
  forall st0 st, settled st0 -> refreshes hostname rs st0 = Return st ->
  settled st
  /\ (logoUrl st, dominantColor st) = styles hostname rs (logoUrl st0, dominantColor st0).
Proof.
  unfold styles.
  induction rs as [|[time r] rest IH]; intros st0 st Hs H.
  - cbn [refreshes] in H. apply return_inj in H. subst st. auto.
  - cbn [refreshes] in H.
    destruct (rendered st0 (refreshLogo hostname time r st0)) as [st1|e] eqn:E;
      cbn [bind] in H; [|discriminate].
    destruct (rendered_elim _ _ _ _ _ Hs E) as (Hs1 & L1 & D1).
    destruct (IH st1 st Hs1 H) as [Hst Hfold].
    split; [exact Hst|]. rewrite Hfold, L1, D1. cbn [fold_left fst snd].
    unfold fetchHeaderStyle.
    destruct (response_data r) as [[u v]|]; reflexivity.
Qed.

Lemma LogoProvider_elim (hostname : string) (rs : list (string * HeaderStyleResponse))
    (st : LogoState) :
  LogoProvider hostname rs = Return st ->
  settled st /\ (logoUrl st, dominantColor st) = last_style hostname rs.
Proof.
  unfold LogoProvider, last_style. destruct mounted_elim as (st0 & -> & Hs & L0 & D0).
  cbn [bind]. intros H.
  destruct (refreshes_elim hostname rs st0 st Hs H) as [Hst Hfold].
  split; [exact Hst|]. rewrite Hfold, L0, D0. reflexivity.
Qed.

Lemma fullLogoUrl_nonempty (hostname data_logoUrl time : string) :
  exists c0 rest, fullLogoUrl hostname data_logoUrl time = String c0 rest.
Proof.
  unfold fullLogoUrl, HTTP_PROTOCOL.
  destruct (isProduction hostname); cbn [append]; eexists; eexists; reflexivity.
Qed.

Lemma styles_logoUrl_empty (hostname : string) (rs : list (string * HeaderStyleResponse)) :
  forall style,
    fst (styles hostname rs style) = EmptyString
    <-> fst style = EmptyString /\ existsb (fun tr => delivers (snd tr)) rs = false.
Proof.
  unfold styles.
  induction rs as [|[time r] rest IH]; intros style; cbn [fold_left existsb fst snd].
  - tauto.
  - rewrite IH. unfold delivers.
    destruct (response_data r) as [[u v]|]; cbn [orb fst]; try tauto.
    destruct (fullLogoUrl_nonempty hostname u time) as (c0 & rest' & ->).
    split; intros [H1 H2]; discriminate.
Qed.

Lemma styles_unchanged (hostname : string) (rs : list (string * HeaderStyleResponse)) :
  forall style,
    existsb (fun tr => delivers (snd tr)) rs = false -> styles hostname rs style = style.
Proof.
  unfold styles.
  induction rs as [|[time r] rest IH]; intros style; cbn [fold_left existsb fst snd].
  - reflexivity.
  - unfold delivers at 1.
    destruct (response_data r) as [[u v]|]; cbn [orb]; [discriminate|].
    apply IH.
Qed.

Lemma refreshes_throws (hostname : string) (rs : list (string * HeaderStyleResponse)) :
  forall st0, truthy_non_string (dominantColor st0) = false ->
  (throws (refreshes hostname rs st0)
   <-> existsb (fun tr => breaks_effect (snd tr)) rs = true).
Proof.
  induction rs as [|[time r] rest IH]; intros st0 H0; cbn [refreshes existsb snd].
  - split; [intros [e E]; discriminate E | discriminate].
  - assert (Same : rendered st0 st0 = Return st0).
    { unfold rendered. rewrite Object_is_refl. reflexivity. }
    unfold refreshLogo, fetchHeaderStyle, breaks_effect.
    destruct (response_data r) as [[u v]|]; cbn [orb].
    + unfold rendered. cbn [headerStyleReceived dominantColor].
      destruct (truthy_non_string v) eqn:Hv; cbn [orb].
      * destruct (Object_is (dominantColor st0) v) eqn:E.
        { apply Object_is_eq in E. rewrite E, Hv in H0. discriminate H0. }
        unfold complementaryEffect. cbn [headerStyleReceived dominantColor].
        rewrite (throws_truthy_non_string v Hv). cbn [bind].
        split; [reflexivity | intros _; exists TypeError; reflexivity].
      * destruct (Object_is (dominantColor st0) v).
        { cbn [bind]. apply IH. exact Hv. }
        unfold complementaryEffect. cbn [headerStyleReceived dominantColor].
        destruct (returns_otherwise v Hv) as [out ->]. cbn [bind].
        apply IH. exact Hv.
    + rewrite Same. cbn [bind]. apply IH. exact H0.
Qed.

(** *** The default complementary colour *)

Lemma has_char_append (c : ascii) (a b : string) :
  has_char c (a ++ b) = has_char c a || has_char c b.
Proof.
  induction a as [|c' a IH]; cbn [append has_char]; [reflexivity|].
  rewrite IH. apply orb_assoc.
Qed.

Lemma hex_char_lower (d : Z) : Ascii.eqb (hex_char d) "E" = false.
Proof.
  unfold hex_char.
  repeat match goal with
         | |- context [match ?p with _ => _ end] => destruct p
         end; reflexivity.
Qed.

Lemma hex_digits_lower (fuel : nat) :
  forall z acc, has_char "E" acc = false -> has_char "E" (hex_digits fuel z acc) = false.
Proof.
  induction fuel as [|fuel IH]; intros z acc H; cbn [hex_digits].
  - cbn [has_char]. rewrite hex_char_lower, H. reflexivity.
  - destruct (z / 16 =? 0)%Z.
    + cbn [has_char]. rewrite hex_char_lower, H. reflexivity.
    + apply IH. cbn [has_char]. rewrite hex_char_lower, H. reflexivity.
Qed.

Lemma toString16_lower (x : number) : has_char "E" (toString16 x) = false.
Proof.
  unfold toString16.
  destruct (Prim2SF x) as [sg|[]| |[] m e]; try reflexivity;
    match goal with
    | |- context [Z_toString16 ?z] => generalize z
    end; intros z0;
    rewrite ?has_char_append; unfold Z_toString16;
    rewrite hex_digits_lower; reflexivity.
Qed.

Lemma channel_hex_lower (x : number) : has_char "E" (channel_hex x) = false.
Proof.
  unfold channel_hex, padStart2. pose proof (toString16_lower x) as H.
  destruct (toString16 x) as [|a [|b rest]]; cbn [String.length]; exact H.
Qed.

(** [hslToHex] never prints the letter E of ["#6495ED"]: the digits it
    prints are lower-case, and ["NaN"] and ["Infinity"] have no E. *)
Lemma hslToHex_lower (h s l : number) : has_char "E" (hslToHex h s l) = false.
Proof.
  rewrite hslToHex_unfold. destruct (hslToRGB h s l) as [[r g] b].
  unfold hex_of_rgb. cbn [append has_char].
  rewrite !has_char_append, !channel_hex_lower. reflexivity.
Qed.

Lemma default_iff_falsy (v : JsValue) (out : string) :
  calculateComplementaryColor v = Return out ->
  (out = "#6495ED"%string <-> js_not v = true).
Proof.
  unfold calculateComplementaryColor.
  destruct (js_not v) eqn:F.
  - intros H. apply return_inj in H. subst out. tauto.
  - destruct v as [| |b|x|str|ref]; cbn [hexToHSL bind]; try discriminate.
    intros H. apply return_inj in H. subst out.
    split; [|discriminate]. intros E.
    pose proof (hslToHex_lower (newHue (hexToHSL_string str))
                  (newSaturation (hexToHSL_string str))
                  (newLightness (hexToHSL_string str))) as N.
    rewrite E in N. discriminate N.
Qed.

Lemma complementary_of_default :
  calculateComplementaryColor (JsString "#282c34") = Return "#c49331"%string.
Proof. vm_compute. reflexivity. Qed.

(** C3, amended: as long as no response has delivered data (lines 114-117
    have not run to their end), the provider's dominant colour is
    ["#282c34"] and its complementary colour is ["#ED7D31"] at the first
    render and ["#c49331"], the colour computed from ["#282c34"], once the
    effect has run.  In every run in which the effect has not thrown, the
    provider shows ["#6495ED"] exactly when its dominant colour is falsy:
    the last response that delivered data had no [dominantColor], or
    [null], [false], a zero, NaN or the empty string.  The dominant colour
    is then that value, not ["#282c34"]. *)
Theorem default_colors :
  theme initialState = (JsString "#282c34", "#ED7D31"%string)
  /\ mounted = Return {| logoUrl := ""; dominantColor := JsString "#282c34";
                         complementaryColor := "#c49331" |}
  /\ forall (hostname : string) (rs : list (string * HeaderStyleResponse))
            (st : LogoState),
       LogoProvider hostname rs = Return st ->
       (existsb (fun tr => delivers (snd tr)) rs = false ->
        theme st = (JsString "#282c34", "#c49331"%string))
       /\ dominantColor st = snd (last_style hostname rs)
       /\ (complementaryColor st = "#6495ED"%string <-> js_not (dominantColor st) = true)
       /\ (complementaryColor st = "#6495ED"%string ->
           dominantColor st <> JsString "#282c34").
Proof.
  split; [reflexivity|]. split; [vm_compute; reflexivity|].
  intros hostname rs st H.
  destruct (LogoProvider_elim hostname rs st H) as [Hs E].
  assert (D : dominantColor st = snd (last_style hostname rs))
    by (rewrite <- E; reflexivity).
  pose proof (default_iff_falsy _ _ Hs) as Iff.
  split; [|split; [exact D|split; [exact Iff|]]].
  - intros N. unfold last_style in D. rewrite (styles_unchanged hostname rs _ N) in D.
    cbn [snd dominantColor initialState] in D.
    unfold settled in Hs. rewrite D, complementary_of_default in Hs.
    apply return_inj in Hs. unfold theme. rewrite D, <- Hs. reflexivity.
  - intros C Eq. apply Iff in C. rewrite Eq in C. discriminate C.
Qed.

Lemma default_colors_witness :
  exists st,
    LogoProvider "localhost"
      [("1"%string, Response true (JsonData (Some "/logo.png"%string) JsNull));
       ("2"%string, Response true JsonNull)]
    = Return st
    /\ dominantColor st = JsNull
    /\ complementaryColor st = "#6495ED"%string
    /\ dominantColor st <> JsString "#282c34".
Proof.
  eexists. split; [vm_compute; reflexivity|].
  destruct default_colors as (_ & _ & H).
  destruct (H "localhost"%string
              [("1"%string, Response true (JsonData (Some "/logo.png"%string) JsNull));
               ("2"%string, Response true JsonNull)]
              _ eq_refl) as (_ & D & Iff & Ne).
  split; [exact D|]. split; [apply Iff; reflexivity|].
  apply Ne. apply Iff. reflexivity.
Defined.

(** X15: as long as the effect has not thrown, [Header] renders the logo
    image exactly when some request of the provider has delivered data,
    that is, lines 114-117 have run to their end: the response was [ok],
    its body was JSON other than [null], and the template of line 115 made
    a text of [data.logoUrl].  From then on the image is there, whatever
    that text was and whatever happens to later requests.  A request that
    fails, a response that is not [ok] and an [ok] response for which line
    114 or line 115 throws show no image. *)
Theorem logo_shown_iff_data_delivered (hostname : string)
    (rs : list (string * HeaderStyleResponse)) (st : LogoState) :
  LogoProvider hostname rs = Return st ->
  (Header_img st = None <-> existsb (fun tr => delivers (snd tr)) rs = false).
Proof.
  intros H. destruct (LogoProvider_elim hostname rs st H) as [_ E].
  assert (L : logoUrl st = fst (last_style hostname rs)) by (rewrite <- E; reflexivity).
  unfold last_style in L.
  pose proof (styles_logoUrl_empty hostname rs (logoUrl initialState, dominantColor initialState))
    as Iff.
  rewrite <- L in Iff. cbn [fst logoUrl initialState] in Iff.
  unfold Header_img. split.
  - destruct (logoUrl st); [|discriminate]. intros _. apply Iff. reflexivity.
  - intros N. destruct Iff as [_ Iff]. rewrite Iff by (split; [reflexivity | exact N]).
    reflexivity.
Qed.

Lemma logo_shown_iff_data_delivered_witness :
  exists st,
    LogoProvider "localhost"
      [("1"%string, NoResponse);
       ("2"%string, Response true (JsonData (Some "/logo.png"%string) (JsString "#ff0000")));
       ("3"%string, Response true JsonNull)]
    = Return st
    /\ (Header_img st = None <->
        existsb (fun tr => delivers (snd tr))
          [("1"%string, NoResponse);
           ("2"%string, Response true (JsonData (Some "/logo.png"%string) (JsString "#ff0000")));
           ("3"%string, Response true JsonNull)] = false).
Proof.
  eexists. split; [vm_compute; reflexivity|].
  apply (logo_shown_iff_data_delivered "localhost"
           [("1"%string, NoResponse);
            ("2"%string, Response true (JsonData (Some "/logo.png"%string) (JsString "#ff0000")));
            ("3"%string, Response true JsonNull)]).
  vm_compute. reflexivity.
Defined.

(** X16: in every run in which the effect has not thrown, the state of the
    provider depends on the last response that delivered data alone (a
    response that is [ok] and for which lines 114-117 have run to their
    end): the logo URL and the dominant colour are those set from that
    response (those of the initial state when there is none), and the
    complementary colour is the one computed from that dominant colour.
    Requests that fail, responses that are not [ok] and [ok] responses for
    which line 114 or line 115 throws (a body that is [null] or no JSON, a
    [logoUrl] of which no text can be made) change nothing, wherever they
    come. *)
Theorem provider_state_of_last_response (hostname : string)
    (rs : list (string * HeaderStyleResponse)) (st : LogoState) :
  LogoProvider hostname rs = Return st ->
  (logoUrl st, dominantColor st) = last_style hostname rs
  /\ calculateComplementaryColor (snd (last_style hostname rs))
     = Return (complementaryColor st).
Proof.
  intros H. destruct (LogoProvider_elim hostname rs st H) as [Hs E].
  split; [exact E|]. rewrite <- E. exact Hs.
Qed.

Lemma provider_state_of_last_response_witness :
  exists st,
    LogoProvider "localhost"
      [("1"%string, Response true (JsonData (Some "/logo.png"%string) (JsString "#ff0000")));
       ("2"%string, Response true JsonNull);
       ("3"%string, Response false (JsonData (Some "/other.png"%string) (JsString "#00ff00")))]
    = Return st
    /\ (logoUrl st, dominantColor st)
       = last_style "localhost"
           [("1"%string, Response true (JsonData (Some "/logo.png"%string) (JsString "#ff0000")));
            ("2"%string, Response true JsonNull);
            ("3"%string, Response false (JsonData (Some "/other.png"%string) (JsString "#00ff00")))]
    /\ calculateComplementaryColor
         (snd (last_style "localhost"
                 [("1"%string, Response true (JsonData (Some "/logo.png"%string) (JsString "#ff0000")));
                  ("2"%string, Response true JsonNull);
                  ("3"%string, Response false (JsonData (Some "/other.png"%string) (JsString "#00ff00")))]))
       = Return (complementaryColor st).
Proof.
  eexists. split; [vm_compute; reflexivity|].
  apply (provider_state_of_last_response "localhost"
           [("1"%string, Response true (JsonData (Some "/logo.png"%string) (JsString "#ff0000")));
            ("2"%string, Response true JsonNull);
            ("3"%string, Response false (JsonData (Some "/other.png"%string) (JsString "#00ff00")))]).
  vm_compute. reflexivity.
Defined.

(** X17: the effect of the provider throws exactly when some response
    delivers (it is [ok] and lines 114-117 run to their end) a
    [dominantColor] that is [true], a number other than zero and NaN, an
    array or an object; the [try] of [fetchHeaderStyle] does not cover the
    effect.  No other response, and no failed request, makes it throw. *)
Theorem provider_throws_iff (hostname : string) (rs : list (string * HeaderStyleResponse)) :
  throws (LogoProvider hostname rs)
  <-> existsb (fun tr => breaks_effect (snd tr)) rs = true.
Proof.
  unfold LogoProvider. destruct mounted_elim as (st0 & -> & _ & _ & D0).
  cbn [bind]. apply refreshes_throws. rewrite D0. reflexivity.
Qed.

(** *** The uploader *)

Lemma leb_false_ltb (x y : number) : (x <=? y) = false -> (x <? y) = false.
Proof.
  rewrite leb_spec, ltb_spec. unfold SFleb, SFltb.
  destruct (SFcompare (Prim2SF x) (Prim2SF y)) as [[]|]; auto; discriminate.
Qed.

Lemma progress_step_capped (random prev : number) :
  (90 <? progress_step random prev) = false.
Proof.
  unfold progress_step. cbv zeta.
  destruct (90 <=? prev + random * 15) eqn:E; [reflexivity|].
  apply leb_false_ltb. exact E.
Qed.

Lemma intervals_fire_elim (randoms : list number) :
  forall st,
    file (intervals_fire randoms st) = file st
    /\ feedback (intervals_fire randoms st) = feedback st
    /\ uploading (intervals_fire randoms st) = uploading st
    /\ progressIntervals (intervals_fire randoms st) = progressIntervals st
    /\ ((90 <? uploadProgress st) = false ->
        (90 <? uploadProgress (intervals_fire randoms st)) = false)
    /\ (progressIntervals st = O ->
        uploadProgress (intervals_fire randoms st) = uploadProgress st).
Proof.
  unfold intervals_fire.
  induction randoms as [|random rest IH]; intros st; cbn [fold_left].
  - repeat split; auto.
  - destruct (IH (interval_fires random st)) as (I1 & I2 & I3 & I4 & I5 & I6).
    rewrite I1, I2, I3, I4. unfold interval_fires in *.
    destruct (progressIntervals st) as [|n] eqn:En;
      cbn [file feedback uploading progressIntervals uploadProgress] in *.
    + repeat split; auto.
    + repeat split; try reflexivity.
      * intros _. apply I5. apply progress_step_capped.
      * discriminate.
Qed.

(** X18: while an upload is under way the progress bar never shows more
    than 90: from the 10 that [handleUpload] sets, no run of the interval,
    whatever [Math.random] returns, takes [uploadProgress] above 90. *)
Theorem upload_progress_capped (hostname : string) (st st1 : Uploader) (url : string)
    (randoms : list number) :
  handleUpload hostname st = (st1, Some url) ->
  (90 <? uploadProgress (intervals_fire randoms st1)) = false.
Proof.
  unfold handleUpload. intros H.
  destruct (file st); [|discriminate H].
  injection H as <- _.
  apply (intervals_fire_elim randoms). reflexivity.
Qed.

Lemma upload_progress_capped_witness :
  (90 <? uploadProgress
           (intervals_fire [0.99; 0.99; 0.99; 0.99; 0.99; 0.99; 0.5]
              (fst (handleUpload "localhost"
                      (handleFileChange (Some {| name := "logo.png" |}) initialUploader)))))
  = false.
Proof.
  apply (upload_progress_capped "localhost"
           (handleFileChange (Some {| name := "logo.png" |}) initialUploader)
           _ (uploadUrl "localhost")).
  reflexivity.
Defined.

(** X19: an upload whose [fetch] is answered clears its interval, and one
    whose [fetch] is rejected does not: it leaves one more interval running
    than there was.  After an answered upload that started with no interval
    running, the progress bar stays hidden when the timer has reset it;
    after a rejected one the bar is hidden by the timer and shown again
    when the interval next fires (here with [Math.random()] at 0.5). *)
Theorem rejected_upload_keeps_interval (hostname : string) (randoms : list number)
    (st : Uploader) :
  file st <> None ->
  (forall ok, progressIntervals (upload hostname randoms (Responded ok) st)
              = progressIntervals st)
  /\ progressIntervals (upload hostname randoms Rejected st) = S (progressIntervals st)
  /\ (forall ok randoms',
        progressIntervals st = O ->
        progress_bar_shown
          (intervals_fire randoms' (upload hostname randoms (Responded ok) st)) = false)
  /\ progress_bar_shown (upload hostname randoms Rejected st) = false
  /\ progress_bar_shown (interval_fires 0.5 (upload hostname randoms Rejected st)) = true.
Proof.
  intros Hf. unfold upload, upload_run, handleUpload.
  destruct (file st) as [f|] eqn:Ef; [clear Hf|contradiction].
  set (st1 := {| file := Some f; feedback := feedback st; uploading := true;
                 uploadProgress := 10; progressIntervals := S (progressIntervals st) |}).
  destruct (intervals_fire_elim randoms st1) as (_ & _ & _ & I4 & _).
  cbn [progressIntervals st1] in I4.
  split; [|split; [|split; [|split]]].
  - intros ok. unfold handleUpload_settled, reset_timer_fires.
    cbn [fst progressIntervals]. rewrite I4. reflexivity.
  - unfold handleUpload_settled, reset_timer_fires.
    cbn [fst progressIntervals]. exact I4.
  - intros ok randoms' H0. unfold progress_bar_shown.
    match goal with
    | |- context [intervals_fire randoms' ?s] =>
        destruct (intervals_fire_elim randoms' s) as (_ & _ & _ & _ & _ & I6)
    end.
    rewrite I6.
    + reflexivity.
    + unfold handleUpload_settled, reset_timer_fires.
      cbn [fst progressIntervals]. rewrite I4, H0. reflexivity.
  - reflexivity.
  - unfold handleUpload_settled, reset_timer_fires, interval_fires.
    cbn [fst progressIntervals]. rewrite I4.
    cbn [uploadProgress]. reflexivity.
Qed.

Lemma rejected_upload_keeps_interval_witness :
  progressIntervals
    (upload "localhost" [0.5; 0.25] Rejected
       (handleFileChange (Some {| name := "logo.png" |}) initialUploader))
  = 1%nat.
Proof.
  apply (rejected_upload_keeps_interval "localhost" [0.5; 0.25]
           (handleFileChange (Some {| name := "logo.png" |}) initialUploader)).
  discriminate.
Defined.

(** X20: every call of [handleUpload] ends with feedback on the screen.
    The feedback is of type ["success"] exactly when a file had been
    selected and the response was [ok], and that is also exactly when
    [onUploadSuccess] is called; with a file selected the upload ends with
    [uploading] false and the button enabled, whatever the outcome. *)
Theorem upload_ends_with_feedback (hostname : string) (randoms : list number)
    (o : UploadOutcome) (st : Uploader) :
  feedback_shown (upload hostname randoms o st) = true
  /\ (type (feedback (upload hostname randoms o st)) = "success"%string
      <-> file st <> None /\ o = Responded true)
  /\ (calls_onUploadSuccess hostname randoms o st = true
      <-> file st <> None /\ o = Responded true)
  /\ file (upload hostname randoms o st) = file st
  /\ (file st <> None ->
      uploading (upload hostname randoms o st) = false
      /\ button_disabled (upload hostname randoms o st) = false).
Proof.
  unfold calls_onUploadSuccess, upload, upload_run, handleUpload.
  destruct (file st) as [f|] eqn:Ef.
  - set (st1 := {| file := Some f; feedback := feedback st; uploading := true;
                   uploadProgress := 10; progressIntervals := S (progressIntervals st) |}).
    destruct (intervals_fire_elim randoms st1) as (I1 & _).
    cbn [file st1] in I1.
    unfold feedback_shown, button_disabled, reset_timer_fires, handleUpload_settled.
    destruct o as [[]|];
      cbn [fst snd file feedback uploading message type]; rewrite ?I1;
      intuition congruence.
  - unfold feedback_shown. cbn [fst snd feedback message type file].
    intuition congruence.
Qed.
